(** * Kymesa/expo: the Metro transform worker and the web image wrapper

    A shallow embedding of two files of the repository:

    - [packages/@expo/metro-config/build/transform-worker/transform-worker.js]
      (module [TransformWorker]): the dispatch of [transform] and the
      bodies of [transformSvg] and [transformCss], as programs over the
      calls they make to the host bundler and to the third-party compilers;
    - the web [ImageWrapper] component (module [ImageComponent]): its hooks
      [useThumbhash], [useImageHashes] and [useHeaders], as a state machine
      of one mounted component instance.

    Strings are held as their UTF-8 bytes.  The patterns of the source are
    made of ASCII characters, which no byte of a longer UTF-8 sequence
    equals, so matching on bytes and matching on UTF-16 code units agree. *)

From Stdlib Require Import Ascii.
From stdpp Require Import gmap strings list pretty.

(** ** JavaScript values

    A slot that holds [undefined], [null] or a value, with the operators
    the two files apply to such slots. *)
Module Js.

Inductive nullable (A : Type) : Type :=
| undefined
| null
| val (a : A).
Arguments undefined {A}.
Arguments null {A}.
Arguments val {A} a.

#[global] Instance nullable_eq_dec `{EqDecision A} : EqDecision (nullable A).
Proof. solve_decision. Defined.

Definition is_empty (s : string) : bool :=
  match s with EmptyString => true | _ => false end.

(** The text of a template literal [`${x}`]. *)
Definition interpolate (x : nullable string) : string :=
  match x with
  | undefined => "undefined"
  | null => "null"
  | val s => s
  end.

(** Truthiness of a string-valued slot: [undefined], [null] and [''] are
    falsy. *)
Definition truthy (x : nullable string) : bool :=
  match x with
  | val s => negb (is_empty s)
  | _ => false
  end.

(** [x || ''] on an optional string. *)
Definition or_empty (x : option string) : string := default "" x.

(** [a ?? b] *)
Definition coalesce {A : Type} (a b : nullable A) : nullable A :=
  match a with
  | val _ => a
  | _ => b
  end.

End Js.

(** ** Regular expressions

    The fragment of JavaScript's regular expressions that the two files
    use: literals, character classes, grouping, alternation and [?].
    [rests r s] lists what is left of [s] after [r] has consumed a prefix,
    in the order a backtracking matcher tries the alternatives (a greedy
    [?] tries its body first). *)
Module Regex.
Import Js.

Inductive regex : Type :=
| Eps
| Chr (c : ascii)
| Cls (cs : list ascii)
| Cat (r1 r2 : regex)
| Alt (r1 r2 : regex)
| Opt (r : regex).

Fixpoint lit (s : string) : regex :=
  match s with
  | EmptyString => Eps
  | String c t => Cat (Chr c) (lit t)
  end.

Fixpoint rests (r : regex) (s : string) : list string :=
  match r with
  | Eps => [s]
  | Chr c =>
      match s with
      | String c' t => if decide (c = c') then [t] else []
      | EmptyString => []
      end
  | Cls cs =>
      match s with
      | String c' t => if decide (c' ∈ cs) then [t] else []
      | EmptyString => []
      end
  | Cat r1 r2 => t ← rests r1 s; rests r2 t
  | Alt r1 r2 => rests r1 s ++ rests r2 s
  | Opt r1 => rests r1 s ++ [s]
  end.

(** [/^r$/.test(s)] *)
Definition test_full (r : regex) (s : string) : bool :=
  existsb is_empty (rests r s).

(** [/r$/.test(s)]: some position of [s] starts a match that reaches the
    end of the input. *)
Fixpoint test_end (r : regex) (s : string) : bool :=
  test_full r s ||
  match s with
  | EmptyString => false
  | String _ t => test_end r t
  end.

(** [s.replace(/r/, '')]: the leftmost match, as the matcher first finds
    it, is cut out; without a match the string is returned as it is. *)
Fixpoint replace_first (r : regex) (s : string) : string :=
  match rests r s with
  | t :: _ => t
  | [] =>
      match s with
      | EmptyString => EmptyString
      | String c t => String c (replace_first r t)
      end
  end.

(** The last three characters of a string, or the string when it is
    shorter. *)
Fixpoint last3 (s : string) : string :=
  match s with
  | EmptyString => EmptyString
  | String _ t => if 3 <=? String.length t then last3 t else s
  end.

(** The words of a regular expression. *)
Inductive lang : regex → string → Prop :=
| lang_eps : lang Eps ""
| lang_chr c : lang (Chr c) (String c "")
| lang_cls cs c : c ∈ cs → lang (Cls cs) (String c "")
| lang_cat r1 r2 w1 w2 :
    lang r1 w1 → lang r2 w2 → lang (Cat r1 r2) (w1 +:+ w2)
| lang_alt_l r1 r2 w : lang r1 w → lang (Alt r1 r2) w
| lang_alt_r r1 r2 w : lang r2 w → lang (Alt r1 r2) w
| lang_opt_some r w : lang r w → lang (Opt r) w
| lang_opt_none r : lang (Opt r) "".

End Regex.

(** ** The transform worker

    [transform-worker.js].  The worker calls the host bundler's default
    transform and the SVG, PostCSS, Sass, CSS-module and CSS compilers; none
    of them is part of the file.  A call is a constructor of [ExtCall], its
    answer has type [Resp], and a function of the worker is a program
    [Prog]: the tree of the calls it makes, in order, and of what it returns
    from their answers.  The file has no [try]: a call that throws ends the
    invocation, which is the tree not being continued. *)
Module TransformWorker.
Import Js Regex.

(** [Buffer.from(s)] and [b.toString()] on the UTF-8 bytes; the repair of
    ill-formed bytes by [toString] is left out. *)
Inductive Buffer : Type := Buffer_from (s : string).
Definition toString (b : Buffer) : string := let 'Buffer_from s := b in s.

(** Metro's [type] of a file. *)
Inductive FileType : Type := asset | module | script.

#[global] Instance FileType_eq_dec : EqDecision FileType.
Proof. solve_decision. Defined.

(** The fields of Metro's transform options that the worker reads;
    [customTransformOptions] is optional and maps names to values. *)
Record Options : Type := mkOptions {
  type : FileType;
  platform : nullable string;
  dev : bool;
  minify : bool;
  customTransformOptions : option (gmap string string)
}.

(** [{ ...options, type: t }] *)
Definition with_type (t : FileType) (o : Options) : Options :=
  {| type := t; platform := platform o; dev := dev o; minify := minify o;
     customTransformOptions := customTransformOptions o |}.

(** [process.env]: a variable is unset or holds a string. *)
Record ProcessEnv : Type := mkEnv {
  _EXPO_METRO_SVG_MODULES : nullable string;
  _EXPO_METRO_CSS_MODULES : nullable string
}.

Inductive SassSyntax : Type := indented | scss.

(** What the worker takes from its surroundings without calling out: the
    host's opaque types, and the pure helpers of the sibling modules
    [./css-modules], [./sass], [./css], of [path] and of Metro's
    [countLines], none of which is in the file. *)
Class Host : Type := {
  Config : Type;
  Dependency : Type;
  HostValue : Type;
  matchCssModule : string → bool;
  matchSass : string → option SassSyntax;
  wrapDevelopmentCSS : string → string → string;
  countLines : string → nat;
  dirname : string → string
}.

Section Programs.
Context `{Host}.

(** The [css] record appended to a module's data. *)
Record CssMetadata : Type := mkCss {
  code : string;
  lineCount : nat;
  map : list HostValue;
  functionMap : nullable HostValue
}.

(** A field of an output's [data] object. *)
Inductive Field : Type :=
| host_field (v : HostValue)
| css_field (c : CssMetadata).

Record Output : Type := mkOutput {
  output_type : string;
  data : gmap string Field
}.

Record TransformResponse : Type := mkResponse {
  dependencies : list Dependency;
  output : list Output
}.

(** An SVGR configuration object: [native], [plugins], [svgoConfig] and
    whatever a user's configuration file adds. *)
Inductive SvgrValue : Type :=
| svgr_bool (b : bool)
| svgr_plugins (names : list string)
| svgr_svgo_default
| svgr_user (v : string).

Record CssModuleResult : Type := mkCssModuleResult {
  cm_output : string;
  cm_css : Buffer
}.

(** The calls out of the worker, with the arguments as the source passes
    them.  An answer is the part of the result that the worker reads:
    [compileSass(...).src], the [code] of lightningcss's result (the dynamic
    import of lightningcss goes with its call). *)
Inductive ExtCall : Type :=
| MetroTransform (config : Config) (projectRoot filename : string)
    (contents : Buffer) (options : Options)
| SvgrResolveConfig (dir : string)
| SvgrTransform (src : string) (svgrConfig : gmap string SvgrValue)
| TransformPostCssModule (projectRoot src filename : string)
| CompileSass (projectRoot filename src : string) (syntax : SassSyntax)
| TransformCssModuleWeb (filename src projectRoot : string)
    (dev minify sourceMap : bool)
| LightningTransform (filename : string) (contents : Buffer)
    (sourceMap cssModules : bool) (projectRoot : string) (minify : bool).

Definition Resp (c : ExtCall) : Type :=
  match c with
  | MetroTransform _ _ _ _ _ => TransformResponse
  | SvgrResolveConfig _ => option (gmap string SvgrValue)
  | SvgrTransform _ _ => string
  | TransformPostCssModule _ _ _ => string
  | CompileSass _ _ _ _ => string
  | TransformCssModuleWeb _ _ _ _ _ _ => CssModuleResult
  | LightningTransform _ _ _ _ _ _ => Buffer
  end.

Inductive Prog (R : Type) : Type :=
| Ret (r : R)
| Call (c : ExtCall) (k : Resp c → Prog R).
Arguments Ret {R} r.
Arguments Call {R} c k.

Fixpoint bind {A B : Type} (p : Prog A) (f : A → Prog B) : Prog B :=
  match p with
  | Ret a => f a
  | Call c k => Call c (fun x => bind (k x) f)
  end.

Definition call (c : ExtCall) : Prog (Resp c) := Call c Ret.

(** An oracle answers every call.  [run] plays a program against it and
    returns the calls made, in order, with the result. *)
Definition Oracle : Type := ∀ c : ExtCall, Resp c.

Fixpoint run {R : Type} (o : Oracle) (p : Prog R) : list ExtCall * R :=
  match p with
  | Ret r => ([], r)
  | Call c k => let '(cs, r) := run o (k (o c)) in (c :: cs, r)
  end.

End Programs.

Arguments Ret {_ R} r.
Arguments Call {_ R} c k.

Notation "'let*' x ':=' p 'in' q" := (bind p (fun x => q))
  (at level 10, x name, p at level 100, q at level 200, only parsing).

Section Worker.
Context `{Host}.

(** [metro_transform_worker_1.default.transform(...)] *)
Definition metro_transform (config : Config) (projectRoot filename : string)
    (contents : Buffer) (options : Options) : Prog TransformResponse :=
  call (MetroTransform config projectRoot filename contents options).

(** [/\.module(\.(native|ios|android|web))?\.svg$/] *)
Definition svg_module_regex : regex :=
  Cat (lit ".module")
    (Cat (Opt (Cat (Chr ".")
                 (Alt (lit "native") (Alt (lit "ios")
                    (Alt (lit "android") (lit "web"))))))
       (lit ".svg")).

Definition matchSvgModule (filePath : string) : bool :=
  test_end svg_module_regex filePath.

(** [/\.(s?css|sass)$/] *)
Definition css_regex : regex :=
  Cat (Chr ".") (Alt (Cat (Opt (Chr "s")) (lit "css")) (lit "sass")).

(** The characters with a meaning of their own in the source of a regular
    expression. *)
Definition regex_syntax_chars : list ascii :=
  ["\"; "^"; "$"; "."; "|"; "?"; "*"; "+"; "("; ")"; "["; "]"; "{"; "}"]%char.

Fixpoint free_of_syntax (s : string) : bool :=
  match s with
  | EmptyString => true
  | String c t => bool_decide (c ∉ regex_syntax_chars) && free_of_syntax t
  end.

(** [new RegExp(`^app/\\+html(\\.${options.platform})?\\.([tj]sx?|[cm]js)?$`)].
    The platform is pasted into the source of the expression.  A text
    without syntax characters stands for itself there, and the embedding
    covers those texts: for another text it gives no expression. *)
Definition html_regex (platform : nullable string) : option regex :=
  let p := interpolate platform in
  if free_of_syntax p then
    Some (Cat (lit "app/+html")
            (Cat (Opt (Cat (Chr ".") (lit p)))
               (Cat (Chr ".")
                  (Opt (Alt (Cat (Cls ["t"; "j"]%char)
                               (Cat (Chr "s") (Opt (Chr "x"))))
                          (Cat (Cls ["c"; "m"]%char) (lit "js")))))))
  else None.

(** [options.customTransformOptions?.environment] *)
Definition environment (o : Options) : option string :=
  m ← customTransformOptions o; m !! "environment".

(** The condition of the [+html] branch, [None] where [html_regex] gives no
    expression.  [&&] evaluates the expression only for the client. *)
Definition is_client_html (o : Options) (filename : string) : option bool :=
  if decide (environment o = Some "client") then
    r ← html_regex (platform o); Some (test_full r filename)
  else Some false.

Definition double_quote : ascii := Eval compute in ascii_of_nat 34.

Definition html_notice : string :=
  String double_quote
    ("> The server-only +html file was removed from the client JS bundle by Expo CLI."
     +:+ String double_quote "").

Definition defaultSVGRConfig (options : Options) : gmap string SvgrValue :=
  let isNotNative :=
    negb (truthy (platform options)) ||
    bool_decide (platform options = val "web") in
  <["native" := svgr_bool (negb isNotNative)]>
    (<["plugins" := svgr_plugins ["@svgr/plugin-svgo"; "@svgr/plugin-jsx"]]>
       (<["svgoConfig" := svgr_svgo_default]> ∅)).

Definition transformSvg (config : Config) (projectRoot filename : string)
    (contents : Buffer) (options : Options) : Prog TransformResponse :=
  let* svgUserConfig := call (SvgrResolveConfig (dirname filename)) in
  let svgrConfig :=
    match svgUserConfig with
    | Some user => user ∪ defaultSVGRConfig options
    | None => defaultSVGRConfig options
    end in
  let* compiled := call (SvgrTransform (toString contents) svgrConfig) in
  metro_transform config projectRoot filename (Buffer_from compiled) options.

(** [jsModuleResults.output[0]?.data], spread: no fields when there is no
    first output. *)
Definition first_output_data (jsModuleResults : TransformResponse)
    : gmap string Field :=
  match output jsModuleResults with
  | first :: _ => data first
  | [] => ∅
  end.

(** [{ ...jsModuleResults.output[0]?.data, css: {...} }] wrapped as the one
    output of type ['js/module']. *)
Definition css_output (jsModuleResults : TransformResponse) (cssCode : string)
    : list Output :=
  [ {| output_type := "js/module";
       data := <["css" := css_field
                   {| code := cssCode; lineCount := countLines cssCode;
                      map := []; functionMap := null |}]>
                 (first_output_data jsModuleResults) |} ].

Definition transformCss (config : Config) (projectRoot filename : string)
    (contents : Buffer) (options : Options) : Prog TransformResponse :=
  if negb (bool_decide (platform options = val "web")) then
    let code :=
      if matchCssModule filename
      then "module.exports={ unstable_styles: {} };" else "" in
    metro_transform config projectRoot filename (Buffer_from code) options
  else
    let code := toString contents in
    let* code := call (TransformPostCssModule projectRoot code filename) in
    let* code :=
      match matchSass filename with
      | Some syntax => call (CompileSass projectRoot filename code syntax)
      | None => Ret code
      end in
    if matchCssModule filename then
      let* results :=
        call (TransformCssModuleWeb filename code projectRoot
                (dev options) (minify options) false) in
      let* jsModuleResults :=
        metro_transform config projectRoot filename
          (Buffer_from (cm_output results)) options in
      let cssCode := toString (cm_css results) in
      Ret {| dependencies := dependencies jsModuleResults;
             output := css_output jsModuleResults cssCode |}
    else
      let* cssResults :=
        call (LightningTransform filename (Buffer_from code)
                false false projectRoot (minify options)) in
      let* jsModuleResults :=
        metro_transform config projectRoot filename
          (if dev options
           then Buffer_from (wrapDevelopmentCSS code filename)
           else Buffer_from "")
          options in
      let cssCode := toString cssResults in
      Ret {| dependencies := dependencies jsModuleResults;
             output := css_output jsModuleResults cssCode |}.

(** [transform], [None] where the [+html] test is outside the embedding. *)
Definition transform (env : ProcessEnv) (config : Config)
    (projectRoot filename : string) (contents : Buffer) (options : Options)
    : option (Prog TransformResponse) :=
  if truthy (_EXPO_METRO_SVG_MODULES env) && matchSvgModule filename then
    Some (transformSvg config projectRoot filename contents
            (with_type module options))
  else if bool_decide (type options = asset) then
    Some (metro_transform config projectRoot filename contents options)
  else if truthy (_EXPO_METRO_CSS_MODULES env) && test_end css_regex filename
  then
    Some (transformCss config projectRoot filename contents options)
  else
    is_html ← is_client_html options filename;
    Some (if is_html : bool then
            metro_transform config projectRoot filename
              (if negb (minify options)
               then Buffer_from html_notice else Buffer_from "")
              options
          else
            metro_transform config projectRoot filename contents options).

End Worker.

(** *** The naming patterns as the specification words them *)

(** A name "ending in .module.svg or .module.<native|ios|android|web>.svg". *)
Definition svg_module_suffixes : list string :=
  [".module.svg"; ".module.native.svg"; ".module.ios.svg";
   ".module.android.svg"; ".module.web.svg"].

Definition svg_module_name (filename : string) : Prop :=
  ∃ stem suffix,
    suffix ∈ svg_module_suffixes ∧ filename = stem +:+ suffix.

(** [^app/\+html(\.<platform>)?\.(tsx|ts|jsx|js|cjs|mjs)$], with the
    platform as a literal text. *)
Definition spec_html_regex (platform : string) : regex :=
  Cat (lit "app/+html")
    (Cat (Opt (Cat (Chr ".") (lit platform)))
       (Cat (Chr ".")
          (Alt (lit "tsx") (Alt (lit "ts") (Alt (lit "jsx")
             (Alt (lit "js") (Alt (lit "cjs") (lit "mjs")))))))).

(** *** The names that the patterns accept *)

(** A name ending in [.css], [.scss] or [.sass]. *)
Definition css_suffixes : list string := [".css"; ".scss"; ".sass"].

(** The names that the [+html] expression accepts for a platform text: with
    or without the platform, and with one of six extensions or none. *)
Definition html_extensions : list string :=
  [""; "ts"; "tsx"; "js"; "jsx"; "cjs"; "mjs"].

Definition html_names (platform : string) : list string :=
  ext ← html_extensions;
  ["app/+html." +:+ ext; "app/+html." +:+ platform +:+ "." +:+ ext].


(** *** A host to run the worker against

    Concrete surroundings for the examples: the host's opaque values are
    strings, a CSS module is named like an SVG module, Sass is told by the
    extension; [wrapDevelopmentCSS], [countLines] and [dirname] are
    stand-ins. *)
Definition example_host : Host :=
  {| Config := unit;
     Dependency := string;
     HostValue := string;
     matchCssModule := fun filename =>
       test_end
         (Cat (lit ".module")
            (Cat (Opt (Cat (Chr ".")
                         (Alt (lit "native") (Alt (lit "ios")
                            (Alt (lit "android") (lit "web"))))))
               (Cat (Chr ".")
                  (Alt (lit "css") (Cat (Chr "s")
                     (Cat (Cls ["a"; "c"]%char) (lit "ss")))))))
         filename;
     matchSass := fun filename =>
       if test_end (lit ".sass") filename then Some indented
       else if test_end (lit ".scss") filename then Some scss
       else None;
     wrapDevelopmentCSS := fun src filename =>
       "/* " +:+ filename +:+ " */" +:+ src;
     countLines := fun src => String.length src;
     dirname := fun filename => filename |}.

Definition example_options (t : FileType) (environment : string) : Options :=
  {| type := t; platform := val "ios"; dev := true; minify := false;
     customTransformOptions := Some {[ "environment" := environment ]} |}.

Definition no_flags : ProcessEnv :=
  {| _EXPO_METRO_SVG_MODULES := undefined;
     _EXPO_METRO_CSS_MODULES := undefined |}.

(** An oracle for [example_host] whose answers echo the call. *)
Definition example_oracle : @Oracle example_host :=
  fun c =>
    match c return @Resp example_host c with
    | MetroTransform _ _ filename contents _ =>
        @mkResponse example_host [filename]
          [ @mkOutput example_host "js/module"
              {[ "code" := @host_field example_host (toString contents) ]} ]
    | SvgrResolveConfig _ => None
    | SvgrTransform src _ => "export default " +:+ src
    | TransformPostCssModule _ src _ => src
    | CompileSass _ _ src _ => src
    | TransformCssModuleWeb _ src _ _ _ _ =>
        {| cm_output := "module.exports={}"; cm_css := Buffer_from src |}
    | LightningTransform _ contents _ _ _ _ => contents
    end.

End TransformWorker.

(** ** The image wrapper

    The web [ImageWrapper] component and its hooks.  A component instance
    keeps, between renders, the cells of its hooks: the memoised values
    with the dependencies they were computed from, the [objectURL] state and
    the dependencies of the two effects of [useHeaders].  The instance is
    driven by events: its parent renders it (again), a fetch it started
    settles, it is unmounted.  Each event gives the next instance and the
    actions performed on the outside world, in order.

    A state update re-renders the instance at once, with the props of the
    last render; effects run right after the render they belong to, clean-ups
    before effect bodies.  [Img] keeps three things of the [img] element:
    its [src], its [key] and whether it shows a hash placeholder.  Styling,
    positioning, the tint filter, the handlers and the [srcSet] and [sizes]
    that [getImgPropsFromSource] spreads onto the element from the [source]
    prop are left out of it. *)
Module ImageComponent.
Import Js Regex.

Record ImageSource : Type := mkSource {
  uri : option string;
  headers : option (gmap string string);
  width : option nat;
  height : option nat
}.

#[global] Instance ImageSource_eq_dec : EqDecision ImageSource.
Proof. solve_decision. Defined.

(** The identity of a source object.  The parent numbers the objects it
    passes in; an object literal evaluated by the component is identified by
    the render that evaluated it and by its place in the code. *)
Inductive Site : Type := thumbhash_site | blurhash_site | headers_site.

#[global] Instance Site_eq_dec : EqDecision Site.
Proof. solve_decision. Defined.

Inductive Loc : Type :=
| parent_loc (n : nat)
| render_loc (render : nat) (site : Site).

#[global] Instance Loc_eq_dec : EqDecision Loc.
Proof. solve_decision. Defined.

Record SourceObject : Type := mkObject {
  loc : Loc;
  fields : ImageSource
}.

#[global] Instance SourceObject_eq_dec : EqDecision SourceObject.
Proof. solve_decision. Defined.

(** [Object.is] on [ImageSource | null | undefined], the comparison React
    applies to dependencies: objects are compared by identity. *)
Definition same_value (a b : nullable SourceObject) : bool :=
  match a, b with
  | undefined, undefined => true
  | null, null => true
  | val x, val y => bool_decide (loc x = loc y)
  | _, _ => false
  end.

(** [source?.uri] and [source?.headers] *)
Definition source_uri (source : nullable SourceObject) : option string :=
  match source with
  | val o => uri (fields o)
  | _ => None
  end.

Definition source_headers (source : nullable SourceObject)
    : option (gmap string string) :=
  match source with
  | val o => headers (fields o)
  | _ => None
  end.

(** The image bytes that the two hash decoders produce, which the
    development leaves open. *)
Class Decoders : Type := {
  thumbhash_image : string → string;
  blurhash_image : string → string
}.

(** Modelled from the spec: [isThumbhashString] and [isBlurhashString] of
    [../utils/resolveSources] are not among the source files.  The spec
    speaks of a URI that "matches a recognized hash-string prefix", and the
    component's own comment says that a thumbhash URI "always has to start
    with 'thumbhash:/'". *)
Definition isThumbhashString (str : string) : bool :=
  String.prefix "thumbhash:/" str.

Definition isBlurhashString (str : string) : bool :=
  String.prefix "blurhash:/" str.

(** Modelled from the spec: [thumbHashStringToDataURL] of
    [../utils/thumbhash/thumbhash] is not among the source files.  The spec
    has the hash decoded "into a displayable data URI". *)
Definition thumbHashStringToDataURL `{Decoders} (thumbhash : string) : string :=
  "data:image/png;base64," +:+ thumbhash_image thumbhash.

Definition blurhashStringToDataURL `{Decoders} (blurhash : string) : string :=
  "data:image/png;base64," +:+ blurhash_image blurhash.

(** A callback of the parent, by name. *)
Definition Callback : Type := nat.

Record Events : Type := mkEvents {
  onMount : option (list (option Callback));
  onError : option (list (option Callback))
}.

Inductive CachePolicy : Type :=
| cache_none | cache_disk | cache_memory | cache_memory_disk.

#[global] Instance CachePolicy_eq_dec : EqDecision CachePolicy.
Proof. solve_decision. Defined.

Record Props : Type := mkProps {
  source : nullable SourceObject;
  events : option Events;
  cachePolicy : option CachePolicy
}.

(** The [cache] mode of a request. *)
Inductive RequestCache : Type := no_cache | default_cache.

(** A fetch in flight, with what the closure of the effect that started it
    holds: the [source] and the [onError] list of that render. *)
Record Request : Type := mkRequest {
  request_source : SourceObject;
  request_cache : RequestCache;
  request_onError : option (list (option Callback))
}.

(** How a fetch settles: [fetch] rejects, or it resolves to a response
    whose [blob()] resolves or rejects. *)
Inductive Body : Type :=
| blob (bytes : string)
| blob_error (error : string).

Inductive FetchOutcome : Type :=
| rejected (error : string)
| responded (ok : bool) (status : nat) (statusText : string) (body : Body).

Inductive Action : Type :=
| call_onMount (callback : Callback)
| fetch (source : SourceObject) (cache : RequestCache)
| createObjectURL (url : string)
| revokeObjectURL (url : string)
| console_error (error : string)
| call_onError (callback : Callback) (source : SourceObject).

(** What the component returns: [null], or the [img] element, of which the
    record keeps [src], [key] and the hash flag. *)
Record Img : Type := mkImg {
  src : option string;
  key : option string;
  isImageHash : bool
}.

(** [getFetchPriorityFromImagePriority(priority = 'normal')]: the default
    stands in for [undefined] only. *)
Definition getFetchPriorityFromImagePriority (priority : nullable string)
    : string :=
  let priority :=
    match priority with undefined => val "normal" | _ => priority end in
  match priority with
  | val s =>
      if negb (is_empty s) && bool_decide (s ∈ ["low"; "high"]) then s
      else "auto"
  | _ => "auto"
  end.

(** The [fetchpriority] attribute of the [img] element,
    [getFetchPriorityFromImagePriority(priority || 'normal')]. *)
Definition fetchpriority (priority : nullable string) : string :=
  getFetchPriorityFromImagePriority
    (if truthy priority then priority else val "normal").

(** *** Hooks *)

(** The cell of a [useMemo]: the value computed last and the dependencies
    it was computed from. *)
Record Memo (D V : Type) : Type := mkMemo {
  memo_deps : D;
  memo_value : V
}.
Arguments mkMemo {D V} _ _.
Arguments memo_deps {D V} _.
Arguments memo_value {D V} _.

(** [useMemo(compute, deps)]: the first render computes; a later render
    computes again only when a dependency has changed. *)
Definition useMemo {D V : Type} (same : D → D → bool)
    (cell : option (Memo D V)) (compute : unit → V) (deps : D) : Memo D V :=
  match cell with
  | Some m =>
      if same (memo_deps m) deps then m
      else {| memo_deps := deps; memo_value := compute () |}
  | None => {| memo_deps := deps; memo_value := compute () |}
  end.

Definition same_hash_deps (a b : string * bool) : bool := bool_decide (a = b).

Definition same_sources (a b : nullable SourceObject * nullable SourceObject)
    : bool :=
  same_value a.1 b.1 && same_value a.2 b.2.

Section Hooks.
Context `{Decoders}.

(** [render] numbers the render in progress. *)
Definition useThumbhash (render : nat)
    (cell : option (Memo (string * bool) (nullable SourceObject)))
    (source : nullable SourceObject)
    : Memo (string * bool) (nullable SourceObject) :=
  let isThumbhash := isThumbhashString (or_empty (source_uri source)) in
  let strippedThumbhashString :=
    or_empty (replace_first (lit "thumbhash:/") <$> source_uri source) in
  useMemo same_hash_deps cell
    (fun _ =>
       if isThumbhash
       then val {| loc := render_loc render thumbhash_site;
                   fields := {| uri := Some (thumbHashStringToDataURL
                                               strippedThumbhashString);
                                headers := None; width := None;
                                height := None |} |}
       else null)
    (strippedThumbhashString, isThumbhash).

(** Modelled from the spec: [useBlurhash] of [../utils/blurhash/useBlurhash]
    is not among the source files.  The spec has a recognised hash decoded
    "synchronously/memoized into a displayable data URI"; the hook is
    modelled on [useThumbhash], which is in the file. *)
Definition useBlurhash (render : nat)
    (cell : option (Memo (string * bool) (nullable SourceObject)))
    (source : nullable SourceObject)
    : Memo (string * bool) (nullable SourceObject) :=
  let isBlurhash := isBlurhashString (or_empty (source_uri source)) in
  let strippedBlurhashString :=
    or_empty (replace_first (lit "blurhash:/") <$> source_uri source) in
  useMemo same_hash_deps cell
    (fun _ =>
       if isBlurhash
       then val {| loc := render_loc render blurhash_site;
                   fields := {| uri := Some (blurhashStringToDataURL
                                               strippedBlurhashString);
                                headers := None; width := None;
                                height := None |} |}
       else null)
    (strippedBlurhashString, isBlurhash).

(** The cells of [useImageHashes]: those of the two hash hooks and that of
    its own memo, whose dependencies are [[blurhash, thumbhash]]. *)
Record HashCells : Type := mkHashCells {
  thumbhash_cell : Memo (string * bool) (nullable SourceObject);
  blurhash_cell : Memo (string * bool) (nullable SourceObject);
  resolved_cell :
    Memo (nullable SourceObject * nullable SourceObject)
         (nullable SourceObject * bool)
}.

(** [useImageHashes]; the value of [resolved_cell] is the object
    [{ resolvedSource, isImageHash }] it returns. *)
Definition useImageHashes (render : nat) (cells : option HashCells)
    (source : nullable SourceObject) : HashCells :=
  let thumbhash := useThumbhash render (thumbhash_cell <$> cells) source in
  let blurhash := useBlurhash render (blurhash_cell <$> cells) source in
  let isImageHash :=
    isBlurhashString (or_empty (source_uri source)) ||
    isThumbhashString (or_empty (source_uri source)) in
  {| thumbhash_cell := thumbhash;
     blurhash_cell := blurhash;
     resolved_cell :=
       useMemo same_sources (resolved_cell <$> cells)
         (fun _ =>
            (if isImageHash
             then coalesce (memo_value blurhash)
                    (coalesce (memo_value thumbhash) null)
             else source,
             isImageHash))
         (memo_value blurhash, memo_value thumbhash) |}.

Definition resolvedSource (cells : HashCells) : nullable SourceObject :=
  (memo_value (resolved_cell cells)).1.

(** The cells of [useHeaders]: the [objectURL] state, and the dependencies
    that its two effects ran with last, [[source]] and [[objectURL]]. *)
Record HeaderCells : Type := mkHeaderCells {
  objectURL : option string;
  fetch_deps : nullable SourceObject;
  revoke_deps : option string
}.

(** The body of the first effect of [useHeaders]: the request it starts,
    if it starts one. *)
Definition fetch_effect (source : nullable SourceObject)
    (cachePolicy : option CachePolicy)
    (onError : option (list (option Callback))) : option Request :=
  match source with
  | val o =>
      match headers (fields o), uri (fields o) with
      | Some _, Some u =>
          if is_empty u then None
          else Some {| request_source := o;
                       request_cache :=
                         if decide (cachePolicy = Some cache_none)
                         then no_cache else default_cache;
                       request_onError := onError |}
      | _, _ => None
      end
  | _ => None
  end.

(** The clean-up of the second effect, for the [objectURL] it closed
    over. *)
Definition revoke_cleanup (objectURL : option string) : list Action :=
  match objectURL with
  | Some u => if is_empty u then [] else [revokeObjectURL u]
  | None => []
  end.

(** What [useHeaders] returns. *)
Definition headers_result (render : nat) (source : nullable SourceObject)
    (objectURL : option string) : nullable SourceObject :=
  match source with
  | val o =>
      match headers (fields o) with
      | None => source
      | Some h =>
          match objectURL with
          | Some u =>
              if is_empty u then null
              else val {| loc := render_loc render headers_site;
                          fields := {| uri := Some u; headers := Some h;
                                       width := width (fields o);
                                       height := height (fields o) |} |}
          | None => null
          end
      end
  | _ => source
  end.

(** One render of [useHeaders] with the effects that follow it: the new
    cells, the returned source, the request started and the clean-up
    actions. *)
Definition useHeaders (render : nat) (cells : option HeaderCells)
    (source : nullable SourceObject) (cachePolicy : option CachePolicy)
    (onError : option (list (option Callback)))
    : HeaderCells * nullable SourceObject * option Request * list Action :=
  let url := cells ≫= objectURL in
  let started :=
    match cells with
    | Some c =>
        if same_value (fetch_deps c) source then None
        else fetch_effect source cachePolicy onError
    | None => fetch_effect source cachePolicy onError
    end in
  let cleaned :=
    match cells with
    | Some c =>
        if decide (revoke_deps c = url) then []
        else revoke_cleanup (revoke_deps c)
    | None => []
    end in
  ({| objectURL := url; fetch_deps := source; revoke_deps := url |},
   headers_result render source url, started, cleaned).

(** [list?.forEach((e) => e?.(...))]: the entries that are there are
    called, in order. *)
Definition for_each_callback (callbacks : option (list (option Callback)))
    (act : Callback → Action) : list Action :=
  act <$> omap id (default [] callbacks).

(** *** The component instance *)

(** An instance: whether it is mounted, its last props, the cells of its
    hooks, the fetches in flight, how many renders and blobs there have been,
    and what it shows. *)
Record Instance : Type := mkInstance {
  mounted : bool;
  props : Props;
  hash_cells : HashCells;
  header_cells : HeaderCells;
  pending : list Request;
  renders : nat;
  blobs : nat;
  rendered : option Img
}.

(** What [ImageWrapper] returns: [null] without a source to show, else the
    [img] element with [src={sourceWithHeaders?.uri || undefined}] and
    [key={source?.uri}]. *)
Definition img_element (sourceWithHeaders source : nullable SourceObject)
    (isImageHash : bool) : option Img :=
  match sourceWithHeaders with
  | val o =>
      Some {| src := match uri (fields o) with
                     | Some u => if is_empty u then None else Some u
                     | None => None
                     end;
              key := source_uri source;
              isImageHash := isImageHash |}
  | _ => None
  end.

(** One render of [ImageWrapper] and its effects.  [old] holds the cells of
    the previous render, [None] when the instance is being mounted. *)
Definition ImageWrapper (render : nat)
    (old : option (HashCells * HeaderCells)) (p : Props)
    : HashCells * HeaderCells * option Img * option Request * list Action :=
  let hashes := useImageHashes render (fst <$> old) (source p) in
  let '(resolvedSource, isImageHash) := memo_value (resolved_cell hashes) in
  let '(cells, sourceWithHeaders, started, cleaned) :=
    useHeaders render (snd <$> old) resolvedSource (cachePolicy p)
      (events p ≫= onError) in
  let element := img_element sourceWithHeaders (source p) isImageHash in
  let mount_effect :=
    match old with
    | None => for_each_callback (events p ≫= onMount) call_onMount
    | Some _ => []
    end in
  (hashes, cells, element, started,
   cleaned ++ mount_effect ++
   match started with
   | Some r => [fetch (request_source r) (request_cache r)]
   | None => []
   end).

Definition mount (p : Props) : Instance * list Action :=
  let '(hashes, cells, element, started, actions) :=
    ImageWrapper 0 None p in
  ({| mounted := true; props := p; hash_cells := hashes;
      header_cells := cells; pending := option_list started;
      renders := 1; blobs := 0; rendered := element |},
   actions).

(** A render of a mounted instance with props [p], after [cells] have
    replaced the cells of [useHeaders]. *)
Definition rerender (i : Instance) (cells : HeaderCells) (p : Props)
    : Instance * list Action :=
  let '(hashes, cells', element, started, actions) :=
    ImageWrapper (renders i) (Some (hash_cells i, cells)) p in
  ({| mounted := true; props := p; hash_cells := hashes;
      header_cells := cells'; pending := pending i ++ option_list started;
      renders := S (renders i); blobs := blobs i; rendered := element |},
   actions).

(** [URL.createObjectURL] names a blob as no blob was named before. *)
Definition blob_url (n : nat) : string := "blob:" +:+ pretty n.

(** The error that reaches [catch], if the fetch fails. *)
Definition failure (o : FetchOutcome) : option string :=
  match o with
  | rejected e => Some e
  | responded false status statusText _ =>
      Some ("Failed to fetch image: " +:+ pretty status +:+ " " +:+ statusText)
  | responded true _ _ (blob_error e) => Some e
  | responded true _ _ (blob _) => None
  end.

(** What happens to a mounted instance: the parent renders it with props
    [p]; the fetch at place [n] of [pending] settles with outcome [o]; it is
    unmounted. *)
Inductive Event : Type :=
| Render (p : Props)
| Settle (n : nat) (o : FetchOutcome)
| Unmount.

(** One event.  A fetch that succeeds calls [createObjectURL] and
    [setObjectURL]: a mounted instance whose state changes is rendered again,
    an unmounted one ignores the update.  A fetch that fails runs the [catch]
    block.  Unmounting runs the clean-up of the second effect of
    [useHeaders]; the first one has none. *)
Definition step (i : Instance) (e : Event) : Instance * list Action :=
  match e with
  | Render p =>
      if mounted i then rerender i (header_cells i) p else (i, [])
  | Settle n o =>
      match pending i !! n with
      | None => (i, [])
      | Some r =>
          let i := {| mounted := mounted i; props := props i;
                      hash_cells := hash_cells i;
                      header_cells := header_cells i;
                      pending := delete n (pending i);
                      renders := renders i; blobs := blobs i;
                      rendered := rendered i |} in
          match failure o with
          | Some error =>
              (i, console_error error ::
                  for_each_callback (request_onError r)
                    (fun e => call_onError e (request_source r)))
          | None =>
              let url := blob_url (blobs i) in
              let i := {| mounted := mounted i; props := props i;
                          hash_cells := hash_cells i;
                          header_cells := header_cells i;
                          pending := pending i;
                          renders := renders i; blobs := S (blobs i);
                          rendered := rendered i |} in
              if mounted i && negb (bool_decide
                                      (objectURL (header_cells i) = Some url))
              then
                let '(i', actions) :=
                  rerender i
                    {| objectURL := Some url;
                       fetch_deps := fetch_deps (header_cells i);
                       revoke_deps := revoke_deps (header_cells i) |}
                    (props i) in
                (i', createObjectURL url :: actions)
              else (i, [createObjectURL url])
          end
      end
  | Unmount =>
      if mounted i then
        ({| mounted := false; props := props i; hash_cells := hash_cells i;
            header_cells := header_cells i; pending := pending i;
            renders := renders i; blobs := blobs i; rendered := None |},
         revoke_cleanup (revoke_deps (header_cells i)))
      else (i, [])
  end.

(** The instance after a list of events, with all the actions so far. *)
Fixpoint run_from (i : Instance) (sofar : list Action) (es : list Event)
    : Instance * list Action :=
  match es with
  | [] => (i, sofar)
  | e :: es =>
      let '(i', actions) := step i e in run_from i' (sofar ++ actions) es
  end.

Definition run (p : Props) (es : list Event) : Instance * list Action :=
  let '(i, actions) := mount p in run_from i actions es.

(** The instances that a mount and a list of events lead to. *)
Inductive reachable : Instance → Prop :=
| reachable_mount (p : Props) : reachable (mount p).1
| reachable_step (i : Instance) (e : Event) :
    reachable i → reachable (step i e).1.

End Hooks.

(** *** Reading a history *)

(** The URLs revoked by a list of actions. *)
Definition revocations (actions : list Action) : list string :=
  omap (fun a => match a with revokeObjectURL u => Some u | _ => None end)
    actions.



(** The clean-up of the second effect holds the current [objectURL], which
    is [null] or a URL made by [createObjectURL]. *)
Definition url_invariant (i : Instance) : Prop :=
  revoke_deps (header_cells i) = objectURL (header_cells i) ∧
  (objectURL (header_cells i) = None ∨
   ∃ k, k < blobs i ∧ objectURL (header_cells i) = Some (blob_url k)).

(** As long as the resolved source has headers and the instance has no
    [objectURL], nothing is rendered. *)
Definition waiting_invariant (i : Instance) : Prop :=
  source_headers (resolvedSource (hash_cells i)) ≠ None →
  objectURL (header_cells i) = None →
  rendered i = None.

(** A source that a fetch can be started for: it has headers and a URI
    that is not empty. *)
Definition fetchable (o : SourceObject) : Prop :=
  headers (fields o) ≠ None ∧ or_empty (uri (fields o)) ≠ "".

(** Fetches are started, and [onError] callbacks called, for fetchable
    sources only. *)
Definition fetch_invariant (i : Instance) (log : list Action) : Prop :=
  Forall (fun r => fetchable (request_source r)) (pending i) ∧
  Forall (fun a => match a with
                   | fetch o _ | call_onError _ o => fetchable o
                   | _ => True
                   end) log.

(** The dependencies that [useThumbhash] and [useBlurhash] compute from a
    source. *)
Definition thumbhash_deps (source : nullable SourceObject) : string * bool :=
  (or_empty (replace_first (lit "thumbhash:/") <$> source_uri source),
   isThumbhashString (or_empty (source_uri source))).

Definition blurhash_deps (source : nullable SourceObject) : string * bool :=
  (or_empty (replace_first (lit "blurhash:/") <$> source_uri source),
   isBlurhashString (or_empty (source_uri source))).

(** The cells of [useImageHashes] once it has resolved a source that is not
    a hash to itself. *)
Definition plain_cells (source : nullable SourceObject) : HashCells :=
  {| thumbhash_cell := mkMemo (thumbhash_deps source) null;
     blurhash_cell := mkMemo (blurhash_deps source) null;
     resolved_cell := mkMemo (null, null) (source, false) |}.

(** The placeholder object that a hash hook makes at render [m] from the
    hash with its prefix cut off. *)
Definition placeholder (site : Site) (dataURL : string → string) (m : nat)
    (stripped : string) : SourceObject :=
  {| loc := render_loc m site;
     fields := {| uri := Some (dataURL stripped); headers := None;
                  width := None; height := None |} |}.

(** A cell of a hash hook is up to date at render [n] with a source whose
    dependencies are [deps]: it was computed from [deps], and it holds [null]
    for a source that is not the hook's kind of hash and a placeholder made
    at an earlier render otherwise. *)
Definition hash_cell_ok (site : Site) (dataURL : string → string) (n : nat)
    (deps : string * bool) (cell : Memo (string * bool) (nullable SourceObject))
    : Prop :=
  memo_deps cell = deps ∧
  if deps.2
  then ∃ m,
         m < n ∧ memo_value cell = val (placeholder site dataURL m deps.1)
  else memo_value cell = null.

(** The cells of [useImageHashes] are up to date with the source of the
    last render, and the memo over them holds what it computes from a
    placeholder whenever one of the two hooks has one. *)
Definition hash_invariant `{Decoders} (i : Instance) : Prop :=
  let cells := hash_cells i in
  let blurhash := memo_value (blurhash_cell cells) in
  let thumbhash := memo_value (thumbhash_cell cells) in
  hash_cell_ok thumbhash_site thumbHashStringToDataURL (renders i)
    (thumbhash_deps (source (props i))) (thumbhash_cell cells) ∧
  hash_cell_ok blurhash_site blurhashStringToDataURL (renders i)
    (blurhash_deps (source (props i))) (blurhash_cell cells) ∧
  memo_deps (resolved_cell cells) = (blurhash, thumbhash) ∧
  (blurhash ≠ null ∨ thumbhash ≠ null →
   memo_value (resolved_cell cells)
   = (coalesce blurhash (coalesce thumbhash null), true)).

(** A URI with one of the two recognised hash prefixes. *)
Definition recognised_hash (uri : option string) : bool :=
  isBlurhashString (or_empty uri) || isThumbhashString (or_empty uri).

(** A source with a header mapping and an empty or missing URI. *)
Definition headers_without_uri (source : nullable SourceObject) : Prop :=
  source_headers source ≠ None ∧ or_empty (source_uri source) = "".

(** Every render of the history passes a source that satisfies [P]. *)
Definition renders_only (P : nullable SourceObject → Prop) (es : list Event)
    : Prop :=
  Forall (fun e => match e with Render p => P (source p) | _ => True end) es.

(** A source object with the fields of [o]. *)
Definition same_fields (o : SourceObject) (source : nullable SourceObject)
    : Prop :=
  ∃ o', source = val o' ∧ fields o' = fields o.

(** The action is a call of an [onMount] callback. *)
Definition is_call_onMount (a : Action) : Prop :=
  match a with call_onMount _ => True | _ => False end.

(** *** The ledger of a history *)

(** The URLs made by a list of actions. *)
Definition creations (actions : list Action) : list string :=
  omap (fun a => match a with createObjectURL u => Some u | _ => None end)
    actions.


(** The sources fetched by a list of actions. *)
Definition fetches (actions : list Action) : list SourceObject :=
  omap (fun a => match a with fetch o _ => Some o | _ => None end) actions.

(** The sources that the parent passes in the renders of a history. *)
Definition sources_given (es : list Event) : list (nullable SourceObject) :=
  omap (fun e => match e with Render p => Some (source p) | _ => None end) es.

(** The URLs made so far are numbered in the order they were made, and the
    revoked ones are the first of them; a mounted instance holds the one
    that is not revoked, if there is one. *)
Definition ledger_invariant (i : Instance) (log : list Action) : Prop :=
  creations log = blob_url <$> seq 0 (blobs i) ∧
  ∃ rest,
    creations log = revocations log ++ rest ∧
    (mounted i = true → rest = option_list (objectURL (header_cells i))).

(** The first effect of [useHeaders] ran last with the resolved source, and
    what a mounted instance shows is what [ImageWrapper] returns for its
    cells; an unmounted instance shows nothing. *)
Definition display_invariant (i : Instance) : Prop :=
  fetch_deps (header_cells i) = resolvedSource (hash_cells i) ∧
  if mounted i
  then ∃ n,
         rendered i
         = img_element
             (headers_result n (resolvedSource (hash_cells i))
                (objectURL (header_cells i)))
             (source (props i)) (memo_value (resolved_cell (hash_cells i))).2
  else rendered i = None.

(** Without a placeholder from either hash hook, the memo of
    [useImageHashes] holds [false] for [isImageHash]. *)
Definition flag_invariant (i : Instance) : Prop :=
  memo_value (blurhash_cell (hash_cells i)) = null →
  memo_value (thumbhash_cell (hash_cells i)) = null →
  (memo_value (resolved_cell (hash_cells i))).2 = false.

(** The sources in flight and in the log are among [given], and so is the
    resolved source unless it has no headers. *)
Definition given_invariant (given : list (nullable SourceObject))
    (i : Instance) (log : list Action) : Prop :=
  source (props i) ∈ given ∧
  (resolvedSource (hash_cells i) ∈ given ∨
   source_headers (resolvedSource (hash_cells i)) = None) ∧
  Forall (fun r => val (request_source r) ∈ given) (pending i) ∧
  Forall (fun a => match a with
                   | fetch o _ | call_onError _ o => val o ∈ given
                   | _ => True
                   end) log.

(** *** Sources and decoders for the examples *)

Definition example_decoders : Decoders :=
  {| thumbhash_image := fun hash => "iVBORw0KGgo" +:+ hash;
     blurhash_image := fun hash => "iVBORw0KGgo" +:+ hash |}.

Definition authorization : gmap string string :=
  {[ "Authorization" := "Bearer token" ]}.

Definition plain_source (n : nat) (address : string) : nullable SourceObject :=
  val {| loc := parent_loc n;
         fields := {| uri := Some address; headers := None;
                      width := None; height := None |} |}.

Definition protected_source (n : nat) (address : string)
    : nullable SourceObject :=
  val {| loc := parent_loc n;
         fields := {| uri := Some address; headers := Some authorization;
                      width := None; height := None |} |}.

Definition example_props (source : nullable SourceObject) : Props :=
  {| source := source;
     events := Some {| onMount := None;
                       onError := Some [Some 1; None; Some 2] |};
     cachePolicy := None |}.

Definition ok_response : FetchOutcome :=
  responded true 200 "OK" (blob "PNG").

End ImageComponent.

(** * Theorems *)

(** ** Matching and the words of an expression *)
Module RegexFacts.
Import Js Regex.

Lemma append_cons (c : ascii) (s t : string) :
  String c s +:+ t = String c (s +:+ t).
Proof. reflexivity. Qed.

Lemma append_empty_l (s : string) : "" +:+ s = s.
Proof. reflexivity. Qed.

Lemma append_empty_r (s : string) : s +:+ "" = s.
Proof. induction s as [|c s IH]; [done|]. by rewrite append_cons, IH. Qed.

Lemma append_assoc (s t u : string) : (s +:+ t) +:+ u = s +:+ (t +:+ u).
Proof.
  induction s as [|c s IH]; [done|]. by rewrite !append_cons, IH.
Qed.

Lemma is_empty_true (s : string) : is_empty s = true ↔ s = "".
Proof. by destruct s. Qed.

(** What the matcher leaves is the input less a word of the expression. *)
Lemma rests_sound (r : regex) (s t : string) :
  t ∈ rests r s → ∃ w, s = w +:+ t ∧ lang r w.
Proof.
  revert s t. induction r as [|c|cs|r1 IH1 r2 IH2|r1 IH1 r2 IH2|r IH];
    intros s t Hin; cbn in Hin.
  - apply list_elem_of_singleton in Hin as ->. exists "".
    split; [done|constructor].
  - destruct s as [|c' s]; [by apply not_elem_of_nil in Hin|].
    case_decide as Hc; [|by apply not_elem_of_nil in Hin].
    apply list_elem_of_singleton in Hin as ->. subst c'.
    exists (String c ""). split; [done|constructor].
  - destruct s as [|c' s]; [by apply not_elem_of_nil in Hin|].
    case_decide as Hc; [|by apply not_elem_of_nil in Hin].
    apply list_elem_of_singleton in Hin as ->.
    exists (String c' ""). split; [done|by constructor].
  - apply list_elem_of_bind in Hin as (m & Ht & Hm).
    apply IH1 in Hm as (w1 & -> & Hw1). apply IH2 in Ht as (w2 & -> & Hw2).
    exists (w1 +:+ w2). split; [by rewrite append_assoc|by constructor].
  - apply elem_of_app in Hin as [Hin|Hin].
    + apply IH1 in Hin as (w & -> & Hw). exists w. split; [done|by constructor].
    + apply IH2 in Hin as (w & -> & Hw). exists w.
      split; [done|by apply lang_alt_r].
  - apply elem_of_app in Hin as [Hin|Hin].
    + apply IH in Hin as (w & -> & Hw). exists w. split; [done|by constructor].
    + apply list_elem_of_singleton in Hin as ->. exists "".
      split; [done|apply lang_opt_none].
Qed.

(** Every word of the expression at the head of the input is found. *)
Lemma rests_complete (r : regex) (w : string) :
  lang r w → ∀ t, t ∈ rests r (w +:+ t).
Proof.
  induction 1 as [|c|cs c Hc|r1 r2 w1 w2 _ IH1 _ IH2|r1 r2 w _ IH
                 |r1 r2 w _ IH|r w _ IH|r]; intros t;
    rewrite ?append_cons, ?append_empty_l; cbn.
  - by apply list_elem_of_singleton.
  - rewrite decide_True by done. by apply list_elem_of_singleton.
  - rewrite decide_True by done. by apply list_elem_of_singleton.
  - apply list_elem_of_bind. exists (w2 +:+ t). split; [apply IH2|].
    rewrite append_assoc. apply IH1.
  - apply elem_of_app. left. apply IH.
  - apply elem_of_app. right. apply IH.
  - apply elem_of_app. left. apply IH.
  - apply elem_of_app. right. by apply list_elem_of_singleton.
Qed.

Lemma test_full_lang (r : regex) (s : string) :
  test_full r s = true ↔ lang r s.
Proof.
  unfold test_full. rewrite existsb_exists. split.
  - intros (t & Hin & Ht). apply is_empty_true in Ht as ->.
    apply list_elem_of_In, rests_sound in Hin as (w & -> & Hw).
    by rewrite append_empty_r.
  - intros Hl. exists "". split; [|done]. apply list_elem_of_In.
    pose proof (rests_complete r s Hl "") as Hin.
    by rewrite append_empty_r in Hin.
Qed.

Lemma test_end_lang (r : regex) (s : string) :
  test_end r s = true ↔ ∃ stem w, s = stem +:+ w ∧ lang r w.
Proof.
  induction s as [|c s IH]; cbn [test_end].
  - rewrite orb_false_r, test_full_lang. split.
    + intros Hl. by exists "", "".
    + intros (stem & w & Hs & Hw).
      destruct stem; rewrite ?append_cons, ?append_empty_l in Hs; [|done].
      by subst w.
  - rewrite orb_true_iff, test_full_lang, IH. split.
    + intros [Hl|(stem & w & -> & Hw)].
      * by exists "", (String c s).
      * by exists (String c stem), w.
    + intros (stem & w & Hs & Hw).
      destruct stem as [|c' stem]; rewrite ?append_cons, ?append_empty_l in Hs.
      * left. by subst w.
      * right. injection Hs as -> ->. by exists stem, w.
Qed.

(** The words of each form of expression. *)
Lemma lang_Eps (w : string) : lang Eps w ↔ w = "".
Proof. split; [by inversion 1|intros ->; constructor]. Qed.

Lemma lang_Chr (c : ascii) (w : string) : lang (Chr c) w ↔ w = String c "".
Proof. split; [by inversion 1|intros ->; constructor]. Qed.

Lemma lang_Cls (cs : list ascii) (w : string) :
  lang (Cls cs) w ↔ ∃ c, c ∈ cs ∧ w = String c "".
Proof.
  split; [inversion 1; subst; eauto|intros (c & Hc & ->); by constructor].
Qed.

Lemma lang_Cat (r1 r2 : regex) (w : string) :
  lang (Cat r1 r2) w ↔ ∃ w1 w2, w = w1 +:+ w2 ∧ lang r1 w1 ∧ lang r2 w2.
Proof.
  split; [inversion 1; subst; eauto|].
  intros (w1 & w2 & -> & H1 & H2). by constructor.
Qed.

Lemma lang_Alt (r1 r2 : regex) (w : string) :
  lang (Alt r1 r2) w ↔ lang r1 w ∨ lang r2 w.
Proof.
  split; [inversion 1; subst; eauto|].
  intros [Hl|Hl]; [by apply lang_alt_l|by apply lang_alt_r].
Qed.

Lemma lang_Opt (r : regex) (w : string) :
  lang (Opt r) w ↔ lang r w ∨ w = "".
Proof.
  split; [inversion 1; subst; eauto|].
  intros [Hl| ->]; [by apply lang_opt_some|apply lang_opt_none].
Qed.

Lemma lang_lit (s w : string) : lang (lit s) w ↔ w = s.
Proof.
  revert w. induction s as [|c s IH]; intros w; cbn [lit].
  - apply lang_Eps.
  - rewrite lang_Cat. split.
    + intros (w1 & w2 & -> & H1 & H2). apply lang_Chr in H1 as ->.
      apply IH in H2 as ->. done.
    + intros ->. exists (String c ""), s. split; [done|].
      split; [apply lang_Chr|apply IH]; done.
Qed.

End RegexFacts.

(** ** The transform worker *)
Module TransformWorkerFacts.
Import Js Regex RegexFacts TransformWorker.

(** Membership in a list that is written out: [in_listed] finds the
    element, [not_listed H] refutes [H : x ∈ [...]] when [x] differs from
    every entry. *)
Ltac in_listed :=
  repeat first [apply list_elem_of_here | apply list_elem_of_further].

Ltac not_listed H :=
  repeat (apply elem_of_cons in H as [H|H]; [discriminate H|]);
  by apply not_elem_of_nil in H.

Lemma length_append (s t : string) :
  String.length (s +:+ t) = String.length s + String.length t.
Proof.
  induction s as [|c s IH]; [done|]. rewrite append_cons. cbn. by rewrite IH.
Qed.

Lemma last3_append (s t : string) :
  3 ≤ String.length t → last3 (s +:+ t) = last3 t.
Proof.
  intros Ht. induction s as [|c s IH]; [done|].
  rewrite append_cons. cbn [last3].
  destruct (Nat.leb_spec 3 (String.length (s +:+ t))) as [_|Hlt]; [done|].
  rewrite length_append in Hlt. lia.
Qed.

(** The words of [svg_module_regex] are the five suffixes. *)
Lemma svg_module_regex_words (w : string) :
  lang svg_module_regex w ↔ w ∈ svg_module_suffixes.
Proof.
  split.
  - unfold svg_module_regex.
    rewrite !lang_Cat. intros (w1 & w2 & -> & H1 & H2).
    apply lang_lit in H1 as ->.
    apply lang_Cat in H2 as (w3 & w4 & -> & H3 & H4).
    apply lang_lit in H4 as ->.
    apply lang_Opt in H3 as [H3 | ->].
    + apply lang_Cat in H3 as (w5 & w6 & -> & H5 & H6).
      apply lang_Chr in H5 as ->.
      rewrite !lang_Alt, !lang_lit in H6.
      destruct H6 as [-> | [-> | [-> | ->]]]; vm_compute; in_listed.
    + vm_compute. in_listed.
  - intros Hw. apply test_full_lang.
    unfold svg_module_suffixes in Hw.
    repeat (apply elem_of_cons in Hw as [->|Hw]; [reflexivity|]).
    by apply not_elem_of_nil in Hw.
Qed.

(** [matchSvgModule] accepts the names the specification describes. *)
Lemma matchSvgModule_names (filename : string) :
  matchSvgModule filename = true ↔ svg_module_name filename.
Proof.
  unfold matchSvgModule, svg_module_name. rewrite test_end_lang.
  split; intros (stem & w & H1 & H2); exists stem, w.
  - split; [by apply svg_module_regex_words|done].
  - split; [done|by apply svg_module_regex_words].
Qed.

Lemma matchSvgModule_last3 (filename : string) :
  matchSvgModule filename = true → last3 filename = "svg".
Proof.
  intros (stem & w & Hw & ->)%matchSvgModule_names.
  unfold svg_module_suffixes in Hw.
  repeat (apply elem_of_cons in Hw as [->|Hw];
          [by rewrite last3_append by (vm_compute; lia)|]).
  by apply not_elem_of_nil in Hw.
Qed.

Lemma css_regex_last3 (filename : string) :
  test_end css_regex filename = true →
  last3 filename = "css" ∨ last3 filename = "ass".
Proof.
  intros (stem & w & -> & Hw)%test_end_lang. unfold css_regex in Hw.
  apply lang_Cat in Hw as (w1 & w2 & -> & H1 & H2).
  apply lang_Chr in H1 as ->.
  apply lang_Alt in H2 as [H2|H2].
  - apply lang_Cat in H2 as (w3 & w4 & -> & H3 & H4).
    apply lang_lit in H4 as ->. left.
    rewrite <- !append_assoc. by rewrite last3_append by (vm_compute; lia).
  - apply lang_lit in H2 as ->. right.
    by rewrite last3_append by (vm_compute; lia).
Qed.

(** A name of the specification's [+html] pattern ends in one of its six
    extensions. *)
Lemma spec_html_last3 (p filename : string) :
  lang (spec_html_regex p) filename →
  last3 filename ∈ ["tsx"; ".ts"; "jsx"; ".js"; "cjs"; "mjs"].
Proof.
  unfold spec_html_regex. intros Hl.
  apply lang_Cat in Hl as (w1 & w2 & -> & _ & Hl).
  apply lang_Cat in Hl as (w3 & w4 & -> & _ & Hl).
  apply lang_Cat in Hl as (w5 & w6 & -> & H5 & Hl).
  apply lang_Chr in H5 as ->.
  rewrite <- (append_assoc w1 w3).
  rewrite !lang_Alt, !lang_lit in Hl.
  destruct Hl as [-> | [-> | [-> | [-> | [-> | ->]]]]];
    rewrite last3_append by (vm_compute; lia); vm_compute; in_listed.
Qed.

(** The expression of the source accepts every name of the specification's
    pattern. *)
Lemma spec_html_accepted (platform : nullable string) (r : regex)
    (filename : string) :
  html_regex platform = Some r →
  lang (spec_html_regex (interpolate platform)) filename →
  lang r filename.
Proof.
  unfold html_regex, spec_html_regex.
  destruct (free_of_syntax _); [|done]. intros [= <-] Hl.
  apply lang_Cat in Hl as (w1 & w2 & -> & H1 & Hl).
  apply lang_Cat in Hl as (w3 & w4 & -> & H3 & Hl).
  apply lang_Cat in Hl as (w5 & w6 & -> & H5 & Hl).
  repeat (apply lang_cat; [done|]).
  rewrite !lang_Alt, !lang_lit in Hl. apply test_full_lang.
  by destruct Hl as [-> | [-> | [-> | [-> | [-> | ->]]]]].
Qed.

(** The three patterns of the worker on a few names. *)
Example matchSvgModule_examples :
  matchSvgModule "assets/icon.module.svg" = true ∧
  matchSvgModule "assets/icon.module.android.svg" = true ∧
  matchSvgModule "assets/icon.svg" = false ∧
  matchSvgModule "assets/icon.module.tv.svg" = false ∧
  matchSvgModule "assets/icon.module.svg.png" = false.
Proof. by vm_compute. Qed.

Example css_regex_examples :
  test_end css_regex "src/a.css" = true ∧
  test_end css_regex "src/a.scss" = true ∧
  test_end css_regex "src/a.sass" = true ∧
  test_end css_regex "src/a.less" = false ∧
  test_end css_regex "src/acss" = false.
Proof. by vm_compute. Qed.

(** The expression of the source makes the extension optional, so it also
    accepts [app/+html.], which the pattern of the specification does not. *)
Example html_regex_examples :
  (r ← html_regex (val "ios");
   Some (test_full r "app/+html.ios.tsx", test_full r "app/+html.mjs",
         test_full r "app/+html.", test_full r "app/+html.web.js",
         test_full r "src/app/+html.js"))
  = Some (true, true, true, false, false) ∧
  test_full (spec_html_regex "ios") "app/+html." = false ∧
  html_regex (val "i.s") = None.
Proof. by vm_compute. Qed.

Section Claims.
Context `{Host}.

Lemma run_bind {A B : Type} (o : Oracle) (p : Prog A) (f : A → Prog B) :
  run o (bind p f) =
  ((run o p).1 ++ (run o (f (run o p).2)).1, (run o (f (run o p).2)).2).
Proof.
  induction p as [a|c k IH]; cbn.
  - by destruct (run o (f a)).
  - rewrite IH. by destruct (run o (k (o c))).
Qed.





(** C9, as amended.  For the client environment, a file whose [type] is not
    ['asset'] and whose name matches
    [^app/\+html(\.<platform>)?\.(tsx|ts|jsx|js|cjs|mjs)$], the platform
    being a text without regular-expression syntax, has its contents
    replaced: the default transform is applied to the notice when
    [options.minify] is false and to the empty buffer when it is true. *)
Theorem client_html_replaced (env : ProcessEnv) (config : Config)
    (projectRoot filename : string) (contents : Buffer) (options : Options) :
  environment options = Some "client" →
  type options ≠ asset →
  free_of_syntax (interpolate (platform options)) = true →
  test_full (spec_html_regex (interpolate (platform options))) filename
  = true →
  transform env config projectRoot filename contents options
  = Some (metro_transform config projectRoot filename
            (if minify options then Buffer_from "" else Buffer_from html_notice)
            options).
Proof.
  intros Hclient Hasset Hfree Hname%test_full_lang. unfold transform.
  pose proof (spec_html_last3 _ _ Hname) as Hlast.
  assert (matchSvgModule filename = false) as ->.
  { apply not_true_is_false. intros Hsvg%matchSvgModule_last3.
    rewrite Hsvg in Hlast. not_listed Hlast. }
  assert (test_end css_regex filename = false) as ->.
  { apply not_true_is_false. intros [Hcss|Hcss]%css_regex_last3;
      rewrite Hcss in Hlast; not_listed Hlast. }
  rewrite !andb_false_r, bool_decide_eq_false_2 by done.
  unfold is_client_html. rewrite decide_True by done.
  destruct (html_regex (platform options)) as [r|] eqn:Hr.
  - cbn. apply (spec_html_accepted _ _ _ Hr), test_full_lang in Hname as ->.
    by destruct (minify options).
  - unfold html_regex in Hr. by rewrite Hfree in Hr.
Qed.

End Claims.







(** C9, a witness: [app/+html.ios.tsx] in a client bundle for iOS. *)
Lemma client_html_replaced_witness :
  transform (H := example_host) no_flags () "/app" "app/+html.ios.tsx"
    (Buffer_from "export default function Root() {}")
    (example_options module "client")
  = Some (metro_transform (H := example_host) () "/app" "app/+html.ios.tsx"
            (Buffer_from html_notice) (example_options module "client")).
Proof.
  apply (client_html_replaced (H := example_host) no_flags () "/app"
           "app/+html.ios.tsx"
           (Buffer_from "export default function Root() {}")
           (example_options module "client"));
    [reflexivity|discriminate|reflexivity|reflexivity].
Defined.

(** C9, the counterexample: the same file with [type] ['asset'] keeps its
    contents. *)
Lemma client_html_asset_kept :
  let options := example_options asset "client" in
  let transformed :=
    transform (H := example_host) no_flags () "/app" "app/+html.ios.tsx"
      (Buffer_from "export default function Root() {}") options in
  environment options = Some "client" ∧
  test_full (spec_html_regex "ios") "app/+html.ios.tsx" = true ∧
  transformed
  = Some (metro_transform (H := example_host) () "/app" "app/+html.ios.tsx"
            (Buffer_from "export default function Root() {}") options) ∧
  transformed
  ≠ Some (metro_transform (H := example_host) () "/app" "app/+html.ios.tsx"
            (Buffer_from html_notice) options).
Proof.
  split_and!; [reflexivity|reflexivity|reflexivity|].
  intros Heq. apply (f_equal (fmap (fun p => (run example_oracle p).1))) in Heq.
  vm_compute in Heq. discriminate Heq.
Qed.

(** *** The name tests, the routes and the pipelines *)

Lemma css_regex_words (w : string) : lang css_regex w ↔ w ∈ css_suffixes.
Proof.
  split.
  - unfold css_regex. intros Hw.
    apply lang_Cat in Hw as (w1 & w2 & -> & H1 & H2).
    apply lang_Chr in H1 as ->.
    apply lang_Alt in H2 as [H2|H2].
    + apply lang_Cat in H2 as (w3 & w4 & -> & H3 & H4).
      apply lang_lit in H4 as ->.
      apply lang_Opt in H3 as [H3| ->].
      * apply lang_Chr in H3 as ->. vm_compute. in_listed.
      * vm_compute. in_listed.
    + apply lang_lit in H2 as ->. vm_compute. in_listed.
  - intros Hw. apply test_full_lang. unfold css_suffixes in Hw.
    repeat (apply elem_of_cons in Hw as [->|Hw]; [reflexivity|]).
    by apply not_elem_of_nil in Hw.
Qed.

Lemma html_regex_words (platform : nullable string) (r : regex) (w : string) :
  html_regex platform = Some r →
  lang r w ↔ w ∈ html_names (interpolate platform).
Proof.
  unfold html_regex. destruct (free_of_syntax _); [|done]. intros [= <-].
  set (p := interpolate platform).
  set (ext := Opt (Alt _ _)).
  assert (∀ e, lang (Cat (Chr ".") ext) e ↔
               ∃ x, x ∈ html_extensions ∧ e = String "." x) as Hext.
  { intros e. split.
    - intros (w1 & w2 & -> & H1 & H2)%lang_Cat. apply lang_Chr in H1 as ->.
      exists w2. split; [|done]. subst ext.
      apply lang_Opt in H2 as [H2| ->]; [|in_listed].
      apply lang_Alt in H2 as [H2|H2].
      + apply lang_Cat in H2 as (c & w3 & -> & (c1 & Hc & ->)%lang_Cls & H3).
        apply lang_Cat in H3 as (w4 & w5 & -> & ->%lang_Chr & H5).
        apply lang_Opt in H5 as [->%lang_Chr| ->];
          repeat (apply elem_of_cons in Hc as [->|Hc];
                  [vm_compute; in_listed|]);
          by apply not_elem_of_nil in Hc.
      + apply lang_Cat in H2 as (c & w3 & -> & (c1 & Hc & ->)%lang_Cls & H3).
        apply (lang_lit "js") in H3 as ->.
        repeat (apply elem_of_cons in Hc as [->|Hc]; [vm_compute; in_listed|]).
        by apply not_elem_of_nil in Hc.
    - intros (x & Hx & ->). apply test_full_lang. unfold html_extensions in Hx.
      repeat (apply elem_of_cons in Hx as [->|Hx]; [reflexivity|]).
      by apply not_elem_of_nil in Hx. }
  unfold html_names. rewrite list_elem_of_bind. split.
  - intros (w1 & w2 & -> & ->%(lang_lit "app/+html") & H2)%lang_Cat.
    apply lang_Cat in H2 as (w3 & w4 & -> & H3 & H4).
    apply Hext in H4 as (x & Hx & ->). exists x. split; [|done].
    apply lang_Opt in H3 as [H3| ->].
    + apply lang_Cat in H3 as (w5 & w6 & -> & ->%lang_Chr & ->%lang_lit).
      apply list_elem_of_further, list_elem_of_singleton.
      by rewrite !append_assoc.
    + apply elem_of_cons. by left.
  - intros (x & Hw & Hx).
    assert (lang (Cat (Chr ".") ext) (String "." x)) as Hl
      by (apply Hext; eauto).
    apply elem_of_cons in Hw as [->|Hw].
    + apply lang_Cat. exists "app/+html", (String "." x).
      split_and!; [done|by apply (lang_lit "app/+html")|].
      apply lang_Cat. exists "", (String "." x).
      split_and!; [done|apply lang_opt_none|done].
    + apply list_elem_of_singleton in Hw as ->.
      apply lang_Cat. exists "app/+html", (String "." p +:+ String "." x).
      split_and!; [done|by apply (lang_lit "app/+html")|].
      apply lang_cat; [|done]. apply lang_opt_some.
      apply (lang_cat _ _ (String "." "") p); [constructor|by apply lang_lit].
Qed.


(** The last three characters of a string that ends in [c] end in [c]. *)
Lemma last3_snoc (s : string) (c : ascii) :
  ∃ u, last3 (s +:+ String c "") = u +:+ String c "".
Proof.
  induction s as [|a s [u IH]]; [by exists ""|].
  rewrite append_cons. cbn [last3].
  destruct (3 <=? _); [by exists u|by exists (String a s)].
Qed.

(** A name of the [+html] expression does not end like an SVG module or a
    style sheet. *)
Lemma html_names_last3 (p filename : string) :
  filename ∈ html_names p →
  last3 filename ≠ "svg" ∧ last3 filename ≠ "css" ∧ last3 filename ≠ "ass".
Proof.
  assert (∀ s, ∃ u, last3 ("app/+html." +:+ s +:+ "." +:+ "") = u +:+ ".")
    as Hdot.
  { intros s. rewrite <- (append_assoc "app/+html." s). apply last3_snoc. }
  assert (∀ u, u +:+ "." ∉ ["svg"; "css"; "ass"]) as Hu.
  { intros u Hin.
    repeat (apply elem_of_cons in Hin as [Hin|Hin];
            [by destruct u as [|? [|? [|? [|? ?]]]]|]).
    by apply not_elem_of_nil in Hin. }
  unfold html_names, html_extensions. intros (x & Hw & Hx)%list_elem_of_bind.
  assert (last3 filename ∉ ["svg"; "css"; "ass"]) as Hlast.
  { repeat (apply elem_of_cons in Hx as [->|Hx];
            [apply elem_of_cons in Hw as [->|Hw%list_elem_of_singleton]|]);
      try (by apply not_elem_of_nil in Hx); try subst filename;
      first
        [ by (intros Hin; vm_compute in Hin; not_listed Hin)
        | by (destruct (Hdot p) as [u ->]; apply Hu)
        | by (rewrite <- (append_assoc "app/+html." p),
                last3_append by (vm_compute; lia);
              intros Hin; vm_compute in Hin; not_listed Hin) ]. }
  split_and!; intros Heq; apply Hlast; rewrite Heq; in_listed.
Qed.

(** A style sheet is not named like an SVG module. *)
Lemma css_name_not_svg_module (filename : string) :
  test_end css_regex filename = true → matchSvgModule filename = false.
Proof.
  intros Hcss%css_regex_last3. apply not_true_is_false.
  intros Hsvg%matchSvgModule_last3. destruct Hcss; congruence.
Qed.

Section Routes.
Context `{Host}.

Lemma is_client_html_true (options : Options) (filename : string) :
  is_client_html options filename = Some true →
  filename ∈ html_names (interpolate (platform options)).
Proof.
  unfold is_client_html. case_decide; [|done].
  destruct (html_regex (platform options)) as [r|] eqn:Hr; [|done].
  cbn. intros [= Ht].
  by apply test_full_lang, (html_regex_words _ _ _ Hr) in Ht.
Qed.

(** The [+html] test is known to fail in two cases: the bundle is not a
    client bundle, whatever the platform is, or the platform is a text
    without regular-expression syntax and the name is none of its [+html]
    names. *)
Lemma is_client_html_false (options : Options) (filename : string) :
  is_client_html options filename = Some false ↔
  environment options ≠ Some "client" ∨
  (free_of_syntax (interpolate (platform options)) = true ∧
   filename ∉ html_names (interpolate (platform options))).
Proof.
  unfold is_client_html. case_decide as Hclient.
  - destruct (html_regex (platform options)) as [r|] eqn:Hr; cbn.
    + assert (free_of_syntax (interpolate (platform options)) = true) as Hfree.
      { unfold html_regex in Hr. by destruct (free_of_syntax _). }
      rewrite <- (html_regex_words _ _ _ Hr), <- test_full_lang.
      destruct (test_full r filename); split; try done.
      * intros [?|[_ Hno]]; [done|]. by destruct Hno.
      * intros _. right. by split.
    + assert (free_of_syntax (interpolate (platform options)) = false) as Hfree.
      { unfold html_regex in Hr. by destruct (free_of_syntax _). }
      split; [done|]. intros [?|[Hyes _]]; [done|congruence].
  - split; [by left|done].
Qed.


(** [matchSvgModule] is true of the names that end in [.module.svg] or in
    [.module.] and one of [native], [ios], [android], [web] before [.svg],
    and of no other name. *)
Theorem matchSvgModule_suffixes (filePath : string) :
  matchSvgModule filePath = true ↔
  ∃ stem suffix,
    suffix ∈ svg_module_suffixes ∧ filePath = stem +:+ suffix.
Proof.
  unfold matchSvgModule. rewrite test_end_lang.
  split; intros (stem & w & H1 & H2); exists stem, w.
  - split; [by apply svg_module_regex_words|done].
  - split; [done|by apply svg_module_regex_words].
Qed.

(** The style sheet test of [transform] is true of the names that end in
    [.css], [.scss] or [.sass], and of no other name. *)
Theorem css_regex_suffixes (filename : string) :
  test_end css_regex filename = true ↔
  ∃ stem suffix, suffix ∈ css_suffixes ∧ filename = stem +:+ suffix.
Proof.
  rewrite test_end_lang.
  split; intros (stem & w & H1 & H2); exists stem, w.
  - split; [by apply css_regex_words|done].
  - split; [done|by apply css_regex_words].
Qed.

(** For a client bundle and a platform text without regular-expression
    syntax, the [+html] test of [transform] is true of fourteen names:
    [app/+html.] or [app/+html.<platform>.], followed by [ts], [tsx], [js],
    [jsx], [cjs], [mjs] or by nothing.  A platform that is [undefined] or
    [null] is read as the text of that word. *)
Theorem client_html_names (options : Options) (filename : string) :
  environment options = Some "client" →
  free_of_syntax (interpolate (platform options)) = true →
  is_client_html options filename
  = Some (bool_decide
            (filename ∈ html_names (interpolate (platform options)))).
Proof.
  intros Hclient Hfree. unfold is_client_html. rewrite decide_True by done.
  destruct (html_regex (platform options)) as [r|] eqn:Hr.
  - cbn. f_equal. apply eq_true_iff_eq.
    rewrite test_full_lang, (html_regex_words _ _ _ Hr).
    by rewrite bool_decide_eq_true.
  - unfold html_regex in Hr. by rewrite Hfree in Hr.
Qed.

(** No name passes two of the three name tests of [transform]. *)
Theorem name_tests_exclusive (options : Options) (filename : string) :
  let svg := matchSvgModule filename in
  let css := test_end css_regex filename in
  let html := bool_decide (is_client_html options filename = Some true) in
  svg && css = false ∧ svg && html = false ∧ css && html = false.
Proof.
  intros svg css html.
  assert (svg = true → last3 filename = "svg") as Hsvg
    by apply matchSvgModule_last3.
  assert (css = true → last3 filename = "css" ∨ last3 filename = "ass")
    as Hcss by apply css_regex_last3.
  assert (html = true →
          last3 filename ≠ "svg" ∧ last3 filename ≠ "css" ∧
          last3 filename ≠ "ass") as Hhtml.
  { intros Ht%bool_decide_eq_true.
    by eapply html_names_last3, is_client_html_true. }
  destruct svg, css, html; cbn; split_and!; try done.
  all: try (destruct Hhtml as (? & ? & ?); [done|]).
  all: try (specialize (Hsvg eq_refl)).
  all: try (destruct (Hcss eq_refl) as [Heq|Heq]).
  all: congruence.
Qed.


(** With [_EXPO_METRO_CSS_MODULES] set, a file that is not of type
    ['asset'] and whose name ends in [.css], [.scss] or [.sass] goes to
    [transformCss] with the arguments as they came, whether the SVG flag is
    set or not and whatever the platform and the environment are. *)
Theorem css_routed_to_transformCss (env : ProcessEnv) (config : Config)
    (projectRoot filename : string) (contents : Buffer) (options : Options) :
  truthy (_EXPO_METRO_CSS_MODULES env) = true →
  type options ≠ asset →
  test_end css_regex filename = true →
  transform env config projectRoot filename contents options
  = Some (transformCss config projectRoot filename contents options).
Proof.
  intros Hflag Hasset Hcss. unfold transform.
  rewrite (css_name_not_svg_module _ Hcss), andb_false_r, Hflag, Hcss.
  by rewrite bool_decide_eq_false_2.
Qed.


(** [transformSvg] makes three calls, in this order: it asks SVGR for the
    user's configuration of the directory of the file, has SVGR compile the
    text of the file, and gives the compiled text to the host's default
    transform, with the other arguments as they came; what the host answers
    is the result.  In the configuration passed to SVGR an entry of the
    user's configuration wins over the default of the same key, and the
    other defaults stay; the default of [native] is [true] exactly for a
    platform that is a text other than [''] and ['web']. *)
Theorem transformSvg_pipeline (config : Config) (projectRoot filename : string)
    (contents : Buffer) (options : Options) (o : Oracle) :
  let user : option (gmap string SvgrValue) :=
    o (SvgrResolveConfig (dirname filename)) in
  ∃ (svgrConfig : gmap string SvgrValue) (native : bool),
    let compiled : string := o (SvgrTransform (toString contents) svgrConfig) in
    let host :=
      MetroTransform config projectRoot filename (Buffer_from compiled)
        options in
    run o (transformSvg config projectRoot filename contents options)
    = ([SvgrResolveConfig (dirname filename);
        SvgrTransform (toString contents) svgrConfig; host], o host) ∧
    (∀ key,
       svgrConfig !! key
       = match user ≫= (.!! key) with
         | Some value => Some value
         | None => defaultSVGRConfig options !! key
         end) ∧
    defaultSVGRConfig options !! "native" = Some (svgr_bool native) ∧
    (native = true ↔
     ∃ p, platform options = val p ∧ p ≠ "" ∧ p ≠ "web").
Proof.
  intros user. unfold transformSvg.
  exists (match user with
          | Some u => u ∪ defaultSVGRConfig options
          | None => defaultSVGRConfig options
          end).
  exists (negb (negb (truthy (platform options)) ||
                bool_decide (platform options = val "web"))).
  cbn zeta. split_and!.
  - rewrite !run_bind. cbn [call run fst snd app metro_transform]. done.
  - intros key. destruct user as [u|]; cbn; [|done].
    rewrite lookup_union. by destruct (u !! key), (defaultSVGRConfig _ !! key).
  - done.
  - rewrite negb_orb, negb_involutive, andb_true_iff, negb_true_iff,
      bool_decide_eq_false.
    destruct (platform options) as [| |p]; cbn.
    1,2: split; [by intros [? _]|by intros (? & ? & _)].
    split.
    + intros [Hp Hweb]. exists p. split_and!; [done| |congruence].
      intros ->. done.
    + intros (? & [= <-] & Hp & Hweb). split; [by destruct p|congruence].
Qed.




End Routes.

(** The [+html] names of a client bundle for iOS: [app/+html.ios.], without
    an extension, is one of them. *)
Lemma client_html_names_witness :
  is_client_html (example_options module "client") "app/+html.ios."
  = Some (bool_decide ("app/+html.ios." ∈ html_names "ios")) ∧
  bool_decide ("app/+html.ios." ∈ html_names "ios") = true.
Proof.
  split; [|reflexivity].
  apply (client_html_names (example_options module "client")); reflexivity.
Defined.

(** A Sass file with both flags set. *)
Lemma css_routed_to_transformCss_witness :
  transform (H := example_host)
    {| _EXPO_METRO_SVG_MODULES := val "1";
       _EXPO_METRO_CSS_MODULES := val "1" |}
    () "/app" "src/theme.scss" (Buffer_from "$a: 1;")
    (example_options module "client")
  = Some (transformCss (H := example_host) () "/app" "src/theme.scss"
            (Buffer_from "$a: 1;") (example_options module "client")).
Proof.
  apply (css_routed_to_transformCss (H := example_host));
    [reflexivity|discriminate|reflexivity].
Defined.



End TransformWorkerFacts.

(** ** The image wrapper *)
Module ImageWrapperFacts.
Import Js Regex RegexFacts ImageComponent.

Lemma blob_url_not_empty (n : nat) : is_empty (blob_url n) = false.
Proof. reflexivity. Qed.

Lemma blob_url_inj (m n : nat) : blob_url m = blob_url n → m = n.
Proof.
  unfold blob_url. intros Heq%String.app_inj. by apply pretty_nat_inj in Heq.
Qed.

Section Instance.
Context `{Decoders}.

(** *** One render, written out *)

Lemma rerender_eq (i : Instance) (c : HeaderCells) (p : Props) :
  rerender i c p =
  let hashes := useImageHashes (renders i) (Some (hash_cells i)) (source p) in
  let resolved := resolvedSource hashes in
  let started :=
    if same_value (fetch_deps c) resolved then None
    else fetch_effect resolved (cachePolicy p) (events p ≫= onError) in
  ({| mounted := true; props := p; hash_cells := hashes;
      header_cells := {| objectURL := objectURL c; fetch_deps := resolved;
                         revoke_deps := objectURL c |};
      pending := pending i ++ option_list started;
      renders := S (renders i); blobs := blobs i;
      rendered := img_element
                    (headers_result (renders i) resolved (objectURL c))
                    (source p) (memo_value (resolved_cell hashes)).2 |},
   (if decide (revoke_deps c = objectURL c) then []
    else revoke_cleanup (revoke_deps c)) ++
   match started with
   | Some r => [fetch (request_source r) (request_cache r)]
   | None => []
   end).
Proof.
  unfold rerender, ImageWrapper, resolvedSource.
  cbn [fmap option_fmap option_map fst snd].
  destruct (memo_value (resolved_cell (useImageHashes _ _ _)))
    as [resolved hash].
  reflexivity.
Qed.

Lemma mount_eq (p : Props) :
  mount p =
  let hashes := useImageHashes 0 None (source p) in
  let resolved := resolvedSource hashes in
  let started :=
    fetch_effect resolved (cachePolicy p) (events p ≫= onError) in
  ({| mounted := true; props := p; hash_cells := hashes;
      header_cells := {| objectURL := None; fetch_deps := resolved;
                         revoke_deps := None |};
      pending := option_list started; renders := 1; blobs := 0;
      rendered := img_element (headers_result 0 resolved None) (source p)
                    (memo_value (resolved_cell hashes)).2 |},
   for_each_callback (events p ≫= onMount) call_onMount ++
   match started with
   | Some r => [fetch (request_source r) (request_cache r)]
   | None => []
   end).
Proof.
  unfold mount, ImageWrapper, resolvedSource.
  cbn [fmap option_fmap option_map fst snd].
  destruct (memo_value (resolved_cell (useImageHashes _ _ _)))
    as [resolved hash].
  reflexivity.
Qed.

Lemma run_from_app (i : Instance) (sofar : list Action) (es : list Event)
    (e : Event) :
  run_from i sofar (es ++ [e]) =
  let '(i', log) := run_from i sofar es in
  ((step i' e).1, log ++ (step i' e).2).
Proof.
  revert i sofar. induction es as [|e' es IH]; intros i sofar; cbn.
  - by destruct (step i e).
  - destruct (step i e') as [i' actions]. apply IH.
Qed.

Lemma run_snoc (p : Props) (es : list Event) (e : Event) :
  run p (es ++ [e]) =
  ((step (run p es).1 e).1, (run p es).2 ++ (step (run p es).1 e).2).
Proof.
  unfold run. destruct (mount p) as [i actions]. rewrite run_from_app.
  by destruct (run_from i actions es).
Qed.

Lemma run_nil (p : Props) : run p [] = mount p.
Proof. unfold run. by destruct (mount p). Qed.

(** Induction over a history, from the mount onwards. *)
Lemma run_ind (P : Instance → list Action → Prop) (Q : Event → Prop)
    (p : Props) :
  P (mount p).1 (mount p).2 →
  (∀ i log e, Q e → P i log → P (step i e).1 (log ++ (step i e).2)) →
  ∀ es, Forall Q es → P (run p es).1 (run p es).2.
Proof.
  intros Hmount Hstep es. induction es as [|e es IH] using rev_ind; intros HQ.
  - by rewrite run_nil.
  - apply Forall_app in HQ as [HQ He]. apply Forall_inv in He.
    rewrite run_snoc. cbn [fst snd]. apply Hstep; [done|by apply IH].
Qed.

Lemma run_reachable (p : Props) (es : list Event) : reachable (run p es).1.
Proof.
  induction es as [|e es IH] using rev_ind.
  - rewrite run_nil. constructor.
  - rewrite run_snoc. by constructor.
Qed.

(** *** The object URL and its revocation *)

Lemma revocations_app (l1 l2 : list Action) :
  revocations (l1 ++ l2) = revocations l1 ++ revocations l2.
Proof. apply omap_app. Qed.

Lemma revocations_callbacks (callbacks : option (list (option Callback)))
    (act : Callback → Action) :
  (∀ cb, ∀ u, act cb ≠ revokeObjectURL u) →
  revocations (for_each_callback callbacks act) = [].
Proof.
  intros Hact. unfold for_each_callback.
  induction (omap id (default [] callbacks)) as [|cb l IH]; [done|].
  cbn. specialize (Hact cb). destruct (act cb); try done.
  by destruct (Hact url).
Qed.

Lemma revocations_started (started : option Request) :
  revocations match started with
              | Some r => [fetch (request_source r) (request_cache r)]
              | None => []
              end = [].
Proof. by destruct started. Qed.

Lemma revocations_cleanup (i : Instance) :
  url_invariant i →
  revocations (revoke_cleanup (revoke_deps (header_cells i)))
  = option_list (objectURL (header_cells i)).
Proof.
  intros [-> [-> | (k & _ & ->)]]; done.
Qed.

Lemma mount_url_invariant (p : Props) : url_invariant (mount p).1.
Proof. rewrite mount_eq. split; [done|by left]. Qed.

Lemma step_url_invariant (i : Instance) (e : Event) :
  url_invariant i → url_invariant (step i e).1.
Proof.
  intros [Hdeps Hurl]. destruct e as [p|n o|]; cbn [step].
  - destruct (mounted i); [|done]. rewrite rerender_eq. done.
  - destruct (pending i !! n) as [r|]; [|done].
    destruct (failure o) as [error|]; [done|]. cbn [mounted header_cells blobs].
    destruct (mounted i && _) eqn:Hgo.
    + rewrite rerender_eq. cbn. split; [done|]. right.
      exists (blobs i). split; simpl; [lia|done].
    + cbn. split; [done|]. destruct Hurl as [?|(k & ? & ?)]; [by left|].
      right. exists k. split; simpl; [lia|done].
  - by destruct (mounted i).
Qed.

Lemma reachable_url_invariant (i : Instance) : reachable i → url_invariant i.
Proof.
  induction 1; [apply mount_url_invariant|by apply step_url_invariant].
Qed.


(** A fetch that succeeds while the instance is mounted always replaces the
    object URL: the URL made for it is new. *)
Lemma settled_fetch_replaces_url (p : Props) (es : list Event) (n : nat)
    (r : Request) (o : FetchOutcome) :
  let i := (run p es).1 in
  mounted i = true →
  pending i !! n = Some r →
  failure o = None →
  objectURL (header_cells (step i (Settle n o)).1) = Some (blob_url (blobs i))
  ∧ objectURL (header_cells i) ≠ Some (blob_url (blobs i)).
Proof.
  intros i Hm Hr Ho.
  destruct (reachable_url_invariant i (run_reachable p es)) as [_ Hurl].
  clearbody i.
  assert (objectURL (header_cells i) ≠ Some (blob_url (blobs i))) as Hfresh.
  { destruct Hurl as [-> | (k & Hk & ->)]; [done|].
    intros Heq. assert (blob_url k = blob_url (blobs i)) as Hsame by congruence.
    apply blob_url_inj in Hsame. lia. }
  split; [|done]. cbn [step]. rewrite Hr, Ho.
  cbn [mounted header_cells blobs props]. rewrite Hm.
  rewrite bool_decide_eq_false_2 by done. cbn [andb negb].
  rewrite rerender_eq. done.
Qed.

(** *** Sources that are not hashes *)

Lemma recognised_hash_false (u : option string) :
  recognised_hash u = false ↔
  isBlurhashString (or_empty u) = false ∧
  isThumbhashString (or_empty u) = false.
Proof. unfold recognised_hash. apply orb_false_iff. Qed.

(** The first render resolves a source that is not a hash to itself. *)
Lemma first_render_plain (n : nat) (source : nullable SourceObject) :
  recognised_hash (source_uri source) = false →
  useImageHashes n None source = plain_cells source.
Proof.
  intros [Hb Ht]%recognised_hash_false.
  unfold useImageHashes, useThumbhash, useBlurhash, plain_cells,
    thumbhash_deps, blurhash_deps. cbn. by rewrite Hb, Ht.
Qed.

Lemma useThumbhash_hit (n : nat) (source value : nullable SourceObject) :
  useThumbhash n (Some (mkMemo (thumbhash_deps source) value)) source
  = mkMemo (thumbhash_deps source) value.
Proof.
  unfold useThumbhash, useMemo, same_hash_deps, thumbhash_deps. cbn.
  by rewrite bool_decide_eq_true_2.
Qed.

Lemma useBlurhash_hit (n : nat) (source value : nullable SourceObject) :
  useBlurhash n (Some (mkMemo (blurhash_deps source) value)) source
  = mkMemo (blurhash_deps source) value.
Proof.
  unfold useBlurhash, useMemo, same_hash_deps, blurhash_deps. cbn.
  by rewrite bool_decide_eq_true_2.
Qed.

(** A later render with a source that gives the two hash hooks the
    dependencies they had leaves the cells as they are. *)
Lemma later_render_plain (n : nat) (first source : nullable SourceObject) :
  thumbhash_deps source = thumbhash_deps first →
  blurhash_deps source = blurhash_deps first →
  useImageHashes n (Some (plain_cells first)) source = plain_cells first.
Proof.
  intros Ht Hb. unfold plain_cells. rewrite <- Ht, <- Hb.
  unfold useImageHashes.
  cbn [fmap option_fmap option_map thumbhash_cell blurhash_cell resolved_cell].
  by rewrite useThumbhash_hit, useBlurhash_hit.
Qed.

Lemma headers_result_waiting (n : nat) (source : nullable SourceObject) :
  source_headers source ≠ None → headers_result n source None = null.
Proof. destruct source as [| |o]; [done..|]. cbn. by destruct (headers _). Qed.

(** *** A fetch that fails *)

Lemma mount_waiting_invariant (p : Props) : waiting_invariant (mount p).1.
Proof.
  rewrite mount_eq. intros Hh _. cbn in *. by rewrite headers_result_waiting.
Qed.

Lemma step_waiting_invariant (i : Instance) (e : Event) :
  waiting_invariant i → waiting_invariant (step i e).1.
Proof.
  intros Hinv. destruct e as [p|n o|]; cbn [step].
  - destruct (mounted i); [|done]. rewrite rerender_eq.
    intros Hh Hu. simpl in *. rewrite Hu. by rewrite headers_result_waiting.
  - destruct (pending i !! n) as [r|]; [|done].
    destruct (failure o) as [error|]; [done|]. cbn [mounted header_cells blobs].
    destruct (mounted i && _); [|done]. rewrite rerender_eq. by intros _ Hu.
  - by destruct (mounted i).
Qed.

Lemma reachable_waiting_invariant (i : Instance) :
  reachable i → waiting_invariant i.
Proof.
  induction 1; [apply mount_waiting_invariant|by apply step_waiting_invariant].
Qed.

(** C5, as amended.  When a fetch fails (it rejects, the response is not
    [ok], or its body cannot be read), the error is logged with
    [console.error] and then every callback that is there in the [onError]
    list of the render that started the fetch is called with that render's
    source; nothing else happens.  No state changes and nothing is rendered
    anew: the instance shows what it showed before, which is nothing (null)
    while its resolved source has headers and it holds no object URL. *)
Theorem failed_fetch_is_reported (p : Props) (es : list Event) (n : nat)
    (r : Request) (o : FetchOutcome) (error : string) :
  let i := (run p es).1 in
  pending i !! n = Some r →
  failure o = Some error →
  (step i (Settle n o)).2
  = console_error error ::
    for_each_callback (request_onError r)
      (fun callback => call_onError callback (request_source r))
  ∧ rendered (step i (Settle n o)).1 = rendered i
  ∧ header_cells (step i (Settle n o)).1 = header_cells i
  ∧ hash_cells (step i (Settle n o)).1 = hash_cells i
  ∧ (source_headers (resolvedSource (hash_cells i)) ≠ None →
     objectURL (header_cells i) = None →
     rendered (step i (Settle n o)).1 = None).
Proof.
  intros i Hr Ho.
  pose proof (reachable_waiting_invariant i (run_reachable p es)) as Hinv.
  clearbody i. cbn [step]. rewrite Hr, Ho. cbn. split_and!; try done.
Qed.

(** *** Sources that cannot be fetched *)

Lemma fetch_effect_fetchable (source : nullable SourceObject)
    (policy : option CachePolicy) (callbacks : option (list (option Callback)))
    (r : Request) :
  fetch_effect source policy callbacks = Some r →
  fetchable (request_source r).
Proof.
  unfold fetch_effect, fetchable. destruct source as [| |o]; [done..|].
  destruct (headers (fields o)) as [h|] eqn:Hh; [|done].
  destruct (uri (fields o)) as [u|] eqn:Hu; [|done].
  destruct u as [|c u]; [done|]. intros [= <-]. cbn. by rewrite Hh, Hu.
Qed.

Lemma fetch_effect_without_uri (source : nullable SourceObject)
    (policy : option CachePolicy)
    (callbacks : option (list (option Callback))) :
  or_empty (source_uri source) = "" →
  fetch_effect source policy callbacks = None.
Proof.
  unfold fetch_effect. destruct source as [| |o]; [done..|]. cbn.
  destruct (headers (fields o)); [|done].
  destruct (uri (fields o)) as [u|]; [|done]. cbn. by intros ->.
Qed.

Lemma started_fetchable (started : option Request) :
  (∀ r, started = Some r → fetchable (request_source r)) →
  Forall (fun r => fetchable (request_source r)) (option_list started) ∧
  Forall (fun a => match a with
                   | fetch o _ | call_onError _ o => fetchable o
                   | _ => True
                   end)
    match started with
    | Some r => [fetch (request_source r) (request_cache r)]
    | None => []
    end.
Proof.
  destruct started as [r|]; [|done]. intros Hr. specialize (Hr r eq_refl).
  split; cbn; (constructor; [done|constructor]).
Qed.

Lemma cleanup_harmless (u : option string) :
  Forall (fun a => match a with
                   | fetch o _ | call_onError _ o => fetchable o
                   | _ => True
                   end) (revoke_cleanup u).
Proof.
  destruct u as [u|]; [|done]. cbn.
  destruct (is_empty u); [done|]. constructor; [done|constructor].
Qed.

Lemma rerender_fetch_invariant (i : Instance) (c : HeaderCells) (p : Props)
    (log : list Action) :
  fetch_invariant i log →
  fetch_invariant (rerender i c p).1 (log ++ (rerender i c p).2).
Proof.
  intros [Hp Hl]. rewrite rerender_eq. cbn zeta.
  set (started := if same_value _ _ then None else _).
  destruct (started_fetchable started) as [Hs1 Hs2].
  { subst started. intros r. case_match; [done|].
    apply fetch_effect_fetchable. }
  split; cbn [pending fst snd].
  - by apply Forall_app.
  - rewrite !Forall_app. split_and!; [done| |done].
    case_decide; [done|apply cleanup_harmless].
Qed.

Lemma mount_fetch_invariant (p : Props) :
  fetch_invariant (mount p).1 (mount p).2.
Proof.
  rewrite mount_eq. cbn zeta.
  set (started := fetch_effect _ _ _).
  destruct (started_fetchable started) as [Hs1 Hs2].
  { intros r. apply fetch_effect_fetchable. }
  split; cbn [pending fst snd]; [done|].
  apply Forall_app. split; [|done]. unfold for_each_callback.
  by apply Forall_fmap, Forall_forall.
Qed.

Lemma step_fetch_invariant (i : Instance) (log : list Action) (e : Event) :
  fetch_invariant i log →
  fetch_invariant (step i e).1 (log ++ (step i e).2).
Proof.
  intros Hinv. destruct e as [p|n o|]; cbn [step].
  - destruct (mounted i); [|by rewrite app_nil_r].
    by apply rerender_fetch_invariant.
  - destruct (pending i !! n) as [r|] eqn:Hr; [|by rewrite app_nil_r].
    destruct Hinv as [Hp Hl].
    pose proof (Forall_lookup_1 _ _ _ _ Hp Hr) as Hgood.
    assert (Forall (fun r => fetchable (request_source r))
              (delete n (pending i))) as Hdel.
    { by apply Forall_delete. }
    destruct (failure o) as [error|].
    + split; cbn [pending fst snd]; [done|].
      apply Forall_app. split; [done|]. constructor; [done|].
      unfold for_each_callback. by apply Forall_fmap, Forall_forall.
    + cbn [mounted header_cells blobs props]. destruct (mounted i && _).
      * match goal with
        | |- context [rerender ?j ?c ?q] =>
            pose proof (rerender_fetch_invariant j c q
                          (log ++ [createObjectURL (blob_url (blobs i))]))
              as Hre;
            destruct (rerender j c q) as [i' actions]
        end.
        cbn [fst snd] in *. rewrite <- app_assoc in Hre. apply Hre.
        split; [exact Hdel|]. apply Forall_app. split; [done|].
        constructor; [done|constructor].
      * split; cbn [pending fst snd]; [done|].
        apply Forall_app. split; [done|]. constructor; [done|constructor].
  - destruct (mounted i); [|by rewrite app_nil_r].
    destruct Hinv as [Hp Hl]. split; cbn [pending fst snd]; [done|].
    apply Forall_app. split; [done|apply cleanup_harmless].
Qed.

Lemma run_fetch_invariant (p : Props) (es : list Event) :
  fetch_invariant (run p es).1 (run p es).2.
Proof.
  apply (run_ind fetch_invariant (fun _ => True)).
  - apply mount_fetch_invariant.
  - intros i log e _. apply step_fetch_invariant.
  - by apply Forall_forall.
Qed.

Lemma without_uri_deps (source : nullable SourceObject) :
  or_empty (source_uri source) = "" →
  thumbhash_deps source = ("", false) ∧ blurhash_deps source = ("", false) ∧
  recognised_hash (source_uri source) = false.
Proof.
  unfold thumbhash_deps, blurhash_deps, recognised_hash.
  destruct (source_uri source) as [u|]; cbn; [|done]. by intros ->.
Qed.

(** C10, as amended.  A source with a header mapping and an empty or
    missing URI is never fetched, and no [onError] callback is ever called
    with it, whatever the instance goes through.  In an instance that only
    ever receives such sources no fetch is started at all, no object URL is
    made, [useHeaders] returns [null] at every render and nothing is
    rendered. *)
Theorem source_without_uri_is_never_fetched (o : SourceObject) (p : Props)
    (es : list Event) :
  headers_without_uri (val o) →
  let i := (run p es).1 in
  let log := (run p es).2 in
  (∀ cache, fetch o cache ∉ log) ∧
  (∀ callback, call_onError callback o ∉ log) ∧
  (headers_without_uri (source p) →
   renders_only headers_without_uri es →
   rendered i = None ∧
   objectURL (header_cells i) = None ∧
   headers_result (renders i) (resolvedSource (hash_cells i))
     (objectURL (header_cells i)) = null ∧
   pending i = [] ∧
   Forall is_call_onMount log).
Proof.
  intros [_ Huri] i log. cbn in Huri.
  pose proof (run_fetch_invariant p es) as [_ Hlog].
  fold log in Hlog. rewrite Forall_forall in Hlog. split_and!.
  - intros cache Hin%Hlog. by destruct Hin.
  - intros callback Hin%Hlog. by destruct Hin.
  - intros Hp Hes. subst i log.
    cut (let i := (run p es).1 in
         (∃ first, hash_cells i = plain_cells first ∧ headers_without_uri first)
         ∧ header_cells i
           = {| objectURL := None;
                fetch_deps := fetch_deps (header_cells i);
                revoke_deps := None |}
         ∧ pending i = [] ∧ rendered i = None
         ∧ Forall is_call_onMount (run p es).2).
    { intros ((first & Hcells & Hh & _) & Hheader & Hpending & Hrendered & Hmounts).
      split_and!; try done.
      - by rewrite Hheader.
      - rewrite Hheader, Hcells. cbn. by apply headers_result_waiting. }
    apply (run_ind
             (fun i log =>
                (∃ first, hash_cells i = plain_cells first
                          ∧ headers_without_uri first)
                ∧ header_cells i
                  = {| objectURL := None;
                       fetch_deps := fetch_deps (header_cells i);
                       revoke_deps := None |}
                ∧ pending i = [] ∧ rendered i = None
                ∧ Forall is_call_onMount log)
             (fun e => match e with
                       | Render p => headers_without_uri (source p)
                       | _ => True
                       end)); [| |done].
    + destruct Hp as [Hh Hu]. rewrite mount_eq. cbn zeta.
      destruct (without_uri_deps _ Hu) as (_ & _ & Hplain).
      rewrite first_render_plain by done. cbn.
      rewrite fetch_effect_without_uri by done.
      rewrite headers_result_waiting by done. cbn. split_and!; try done.
      * by exists (source p).
      * rewrite app_nil_r. unfold for_each_callback.
        by apply Forall_fmap, Forall_forall.
    + clear Hes Hlog. intros i log e He ((first & Hcells & Hh & Hu) & Hheader
                                          & Hpending & Hrendered & Hmounts).
      destruct e as [p'|n out|]; cbn [step].
      * destruct (mounted i).
        2:{ rewrite app_nil_r. cbn [fst]. split_and!; try done.
            by exists first. }
        destruct He as [Hh' Hu']. rewrite rerender_eq. cbn zeta.
        destruct (without_uri_deps _ Hu) as (Ht & Hb & _).
        destruct (without_uri_deps _ Hu') as (Ht' & Hb' & _).
        rewrite Hcells, later_render_plain by congruence. cbn.
        rewrite fetch_effect_without_uri by done. rewrite Hheader. cbn.
        rewrite headers_result_waiting by done. cbn. rewrite Hpending.
        destruct (same_value _ first); cbn; rewrite app_nil_r;
          (split_and!; try done; by exists first).
      * rewrite Hpending. cbn. rewrite app_nil_r. split_and!; try done.
        by exists first.
      * destruct (mounted i).
        2:{ rewrite app_nil_r. cbn [fst]. split_and!; try done.
            by exists first. }
        rewrite Hheader. cbn. rewrite app_nil_r. split_and!; try done.
        by exists first.
Qed.

(** C2, as amended.  Take a source with a header mapping whose URI is not
    a recognised hash, and an instance that is mounted with it and is
    rendered again only with sources of the same fields.  Every fetch of the
    instance is a fetch of that source, with its headers, and one is started
    at the mount when the URI is not empty.  While no object URL has been
    made, nothing is rendered; whatever is rendered is an [img] whose [src]
    is the instance's object URL, which [createObjectURL] has made; and a
    mounted instance that has an object URL renders that [img]. *)
Theorem headers_source_waits_for_fetch (o : SourceObject) (p : Props)
    (es : list Event) :
  source p = val o →
  headers (fields o) ≠ None →
  recognised_hash (uri (fields o)) = false →
  renders_only (same_fields o) es →
  let i := (run p es).1 in
  let log := (run p es).2 in
  (∀ source cache, fetch source cache ∈ log → source = o) ∧
  (or_empty (uri (fields o)) ≠ "" → ∃ cache, fetch o cache ∈ log) ∧
  ((∀ u, createObjectURL u ∉ log) → rendered i = None) ∧
  (∀ img, rendered i = Some img →
     ∃ u, createObjectURL u ∈ log ∧ objectURL (header_cells i) = Some u ∧
          src img = Some u) ∧
  (∀ u, mounted i = true → objectURL (header_cells i) = Some u →
     ∃ img, rendered i = Some img ∧ src img = Some u).
Proof.
  intros Hsource Hheaders Hplain Hes i log. subst i log.
  set (shown := fun u : string =>
         {| src := Some u; key := uri (fields o); isImageHash := false |}).
  set (fetches_o := fun a : Action =>
         match a with fetch source _ => source = o | _ => True end).
  set (kept := fun (i : Instance) (log : list Action) =>
         hash_cells i = plain_cells (val o)
         ∧ same_fields o (source (props i))
         ∧ revoke_deps (header_cells i) = objectURL (header_cells i)
         ∧ (objectURL (header_cells i) = None ∨
            ∃ k, objectURL (header_cells i) = Some (blob_url k) ∧
                 createObjectURL (blob_url k) ∈ log)
         ∧ rendered i
           = (if mounted i then shown <$> objectURL (header_cells i) else None)
         ∧ Forall fetches_o log
         ∧ (or_empty (uri (fields o)) ≠ "" → ∃ cache, fetch o cache ∈ log)).
  cut (kept (run p es).1 (run p es).2).
  { intros (_ & _ & _ & Hurl & Hrendered & Hfetches & Hstarted).
    split_and!; [|done|..].
    - intros source cache Hin.
      by apply (proj1 (Forall_forall _ _) Hfetches) in Hin.
    - intros Hnone. rewrite Hrendered.
      destruct Hurl as [-> | (k & _ & Hin)]; [by destruct (mounted _)|].
      by apply Hnone in Hin.
    - intros img. rewrite Hrendered. destruct (mounted _); [|done].
      destruct Hurl as [-> | (k & -> & Hin)]; [done|]. intros [= <-]. eauto.
    - intros u Hm Hu. rewrite Hrendered, Hm, Hu. eauto. }
  assert (∀ policy callbacks,
            Forall fetches_o
              match fetch_effect (val o) policy callbacks with
              | Some r => [fetch (request_source r) (request_cache r)]
              | None => []
              end) as Heffect.
  { intros policy callbacks. cbn. destruct (headers (fields o)); [|done].
    destruct (uri (fields o)) as [u|]; [|done].
    destruct (is_empty u); [done|]. by constructor. }
  apply (run_ind kept
           (fun e => match e with
                     | Render p => same_fields o (source p)
                     | _ => True
                     end)); [| |done].
  - rewrite mount_eq. unfold kept. cbn zeta. rewrite Hsource.
    rewrite first_render_plain by done. cbn [fst snd].
    unfold resolvedSource.
    cbn [rendered mounted props hash_cells header_cells objectURL revoke_deps
         resolved_cell plain_cells memo_value fst snd].
    split_and!; try done.
    + by exists o.
    + by left.
    + cbn. by destruct (headers (fields o)).
    + apply Forall_app. split; [|apply Heffect]. unfold for_each_callback.
      by apply Forall_fmap, Forall_forall.
    + intros Hu. cbn. destruct (headers (fields o)); [|done].
      destruct (uri (fields o)) as [u|]; [|done].
      destruct u as [|c u]; [done|]. cbn. eexists. apply elem_of_app. right.
      apply list_elem_of_here.
  - clear Hes. intros i log e He.
    intros (Hcells & Hprops & Hrevoke & Hurl & Hrendered & Hfetches & Hstarted).
    assert (∀ j c q,
              hash_cells j = plain_cells (val o) →
              same_fields o (source q) →
              (objectURL c = None ∨ ∃ k, objectURL c = Some (blob_url k)) →
              let i' := (rerender j c q).1 in
              hash_cells i' = plain_cells (val o)
              ∧ same_fields o (source (props i'))
              ∧ revoke_deps (header_cells i') = objectURL (header_cells i')
              ∧ objectURL (header_cells i') = objectURL c
              ∧ rendered i'
                = (if mounted i' then shown <$> objectURL (header_cells i')
                   else None)
              ∧ Forall fetches_o (rerender j c q).2) as Hrerender.
    { intros j c q Hj (o' & Hq & Hfields) Hblob. rewrite rerender_eq. cbn zeta.
      rewrite Hj, later_render_plain.
      2,3: rewrite Hq; unfold thumbhash_deps, blurhash_deps; cbn;
           by rewrite Hfields.
      cbn [fst snd]. split_and!; try done; [by exists o'| |].
      - cbn [rendered mounted header_cells objectURL]. unfold resolvedSource.
        cbn [resolved_cell plain_cells memo_value fst snd].
        rewrite Hq. cbn. destruct (headers (fields o)); [|done].
        destruct Hblob as [-> | (k & ->)]; [done|]. cbn.
        rewrite blob_url_not_empty. cbn. rewrite blob_url_not_empty.
        unfold shown. by rewrite Hfields.
      - unfold resolvedSource.
        cbn [resolved_cell plain_cells memo_value fst snd].
        apply Forall_app. split.
        + case_decide; [done|]. destruct (revoke_deps c) as [u|]; [|done].
          cbn. destruct (is_empty u); [done|]. by constructor.
        + destruct (same_value _ _); [done|]. apply Heffect. }
    pose proof (conj Hcells (conj Hprops (conj Hrevoke (conj Hurl (conj Hrendered
                  (conj Hfetches Hstarted)))))) as Hkeep.
    assert (∀ actions,
              (objectURL (header_cells i) = None ∨
               ∃ k, objectURL (header_cells i) = Some (blob_url k) ∧
                    createObjectURL (blob_url k) ∈ log ++ actions)
              ∧ (or_empty (uri (fields o)) ≠ "" →
                 ∃ cache, fetch o cache ∈ log ++ actions)) as Hlater.
    { intros actions. split.
      - destruct Hurl as [?|(k & ? & Hin)]; [by left|right].
        exists k. split; [done|]. apply elem_of_app. by left.
      - intros (cache & Hin)%Hstarted. exists cache. apply elem_of_app.
        by left. }
    destruct e as [p'|n out|]; cbn [step].
    + destruct (mounted i) eqn:Hm;
        [|rewrite app_nil_r; unfold kept; cbn [fst]; rewrite Hm; exact Hkeep].
      destruct (Hrerender i (header_cells i) p' Hcells He)
        as (? & ? & ? & Hsame & ? & ?).
      { destruct Hurl as [?|(k & ? & _)]; eauto. }
      split_and!; try done; [|by apply Forall_app|by apply Hlater].
      rewrite Hsame. by apply Hlater.
    + destruct (pending i !! n) as [r|]; [|rewrite app_nil_r; exact Hkeep].
      destruct (failure out) as [error|].
      { cbn. split_and!; try done; [by apply Hlater| |by apply Hlater].
        apply Forall_app. split; [done|]. constructor; [done|].
        unfold for_each_callback. by apply Forall_fmap, Forall_forall. }
      cbn [mounted header_cells blobs props].
      destruct (mounted i && _) eqn:Hgo.
      * match goal with
        | |- context [rerender ?j ?c ?q] =>
            destruct (Hrerender j c q Hcells Hprops)
              as (? & ? & ? & Hsame & ? & ?);
              [right; by eexists|];
            destruct (rerender j c q) as [i' actions]
        end.
        cbn [fst snd] in *. split_and!; try done.
        -- right. exists (blobs i). rewrite Hsame. split; [done|].
           apply elem_of_app. right. apply list_elem_of_here.
        -- apply Forall_app. split; [done|]. by constructor.
        -- by apply Hlater.
      * cbn. split_and!; try done; [by apply Hlater| |by apply Hlater].
        apply Forall_app. split; [done|]. by constructor.
    + destruct (mounted i) eqn:Hm;
        [|rewrite app_nil_r; unfold kept; cbn [fst]; rewrite Hm; exact Hkeep].
      cbn. split_and!; try done; [by apply Hlater| |by apply Hlater].
      apply Forall_app. split; [done|].
      destruct (revoke_deps (header_cells i)) as [u|]; [|done].
      cbn. destruct (is_empty u); [done|]. by constructor.
Qed.

(** *** What the first render resolves *)

(** At the mount [useImageHashes] does what C3 says: a source that is not a
    hash is passed through as it is, and a recognised hash resolves to a
    new object without headers whose URI is a [data:] URI, which is not a
    hash string. *)
Lemma mount_resolves_source (p : Props) :
  let resolved := resolvedSource (hash_cells (mount p).1) in
  (recognised_hash (source_uri (source p)) = false → resolved = source p) ∧
  (recognised_hash (source_uri (source p)) = true →
   ∃ o payload,
     resolved = val o ∧ headers (fields o) = None ∧
     uri (fields o) = Some ("data:image/png;base64," +:+ payload) ∧
     recognised_hash (uri (fields o)) = false).
Proof.
  rewrite mount_eq. cbn zeta. cbn [hash_cells fst]. split.
  - intros Hplain. by rewrite first_render_plain.
  - unfold recognised_hash, resolvedSource, useImageHashes, useThumbhash,
      useBlurhash. cbn.
    destruct (isBlurhashString _) eqn:Hb; cbn.
    + intros _. eexists _, _. split_and!; done.
    + intros ->. cbn. eexists _, _. split_and!; done.
Qed.

(** *** Sources that are hashes *)

(** One render of a hash hook keeps its cell up to date. *)
Lemma hash_hook_ok (site : Site) (dataURL : string → string) (n : nat)
    (old new : string * bool)
    (cell : Memo (string * bool) (nullable SourceObject)) :
  hash_cell_ok site dataURL n old cell →
  let cell' :=
    useMemo same_hash_deps (Some cell)
      (fun _ => if new.2 then val (placeholder site dataURL n new.1) else null)
      new in
  hash_cell_ok site dataURL (S n) new cell' ∧
  (same_value (memo_value cell) (memo_value cell') = true →
   memo_value cell = memo_value cell').
Proof.
  intros [Hdeps Hvalue]. unfold useMemo, same_hash_deps. cbn zeta.
  case_bool_decide as Hsame.
  - split; [|done]. rewrite Hdeps in Hsame. subst new. split; [done|].
    destruct (old.2); [|done]. destruct Hvalue as (m & Hm & ->).
    exists m. split; [lia|done].
  - split.
    + split; [done|]. cbn. destruct (new.2); [|done].
      exists n. split; [lia|done].
    + cbn. destruct (new.2).
      * destruct (old.2).
        -- destruct Hvalue as (m & Hm & ->). cbn.
           intros [= ->]%bool_decide_eq_true. lia.
        -- by rewrite Hvalue.
      * destruct (memo_value cell); done.
Qed.

Lemma first_hash_hook_ok (site : Site) (dataURL : string → string)
    (deps : string * bool) :
  hash_cell_ok site dataURL 1 deps
    (useMemo same_hash_deps None
       (fun _ => if deps.2 then val (placeholder site dataURL 0 deps.1) else null)
       deps).
Proof.
  split; [done|]. cbn. destruct (deps.2); [|done]. exists 0. split; [lia|done].
Qed.

Lemma hash_cell_not_null (site : Site) (dataURL : string → string) (n : nat)
    (deps : string * bool) (cell : Memo (string * bool) (nullable SourceObject)) :
  hash_cell_ok site dataURL n deps cell →
  (memo_value cell ≠ null ↔ deps.2 = true) ∧
  (deps.2 = true → ∃ o, memo_value cell = val o ∧
                        fields o = {| uri := Some (dataURL deps.1);
                                      headers := None; width := None;
                                      height := None |}).
Proof.
  intros [_ Hvalue]. destruct (deps.2).
  - destruct Hvalue as (m & _ & ->). split; [done|]. intros _. by eexists.
  - rewrite Hvalue. done.
Qed.

Lemma useImageHashes_invariant (n : nat) (old : HashCells)
    (previous source : nullable SourceObject) :
  let blurhash := memo_value (blurhash_cell old) in
  let thumbhash := memo_value (thumbhash_cell old) in
  hash_cell_ok thumbhash_site thumbHashStringToDataURL n
    (thumbhash_deps previous) (thumbhash_cell old) →
  hash_cell_ok blurhash_site blurhashStringToDataURL n
    (blurhash_deps previous) (blurhash_cell old) →
  memo_deps (resolved_cell old) = (blurhash, thumbhash) →
  (blurhash ≠ null ∨ thumbhash ≠ null →
   memo_value (resolved_cell old)
   = (coalesce blurhash (coalesce thumbhash null), true)) →
  let cells := useImageHashes n (Some old) source in
  let blurhash' := memo_value (blurhash_cell cells) in
  let thumbhash' := memo_value (thumbhash_cell cells) in
  hash_cell_ok thumbhash_site thumbHashStringToDataURL (S n)
    (thumbhash_deps source) (thumbhash_cell cells) ∧
  hash_cell_ok blurhash_site blurhashStringToDataURL (S n)
    (blurhash_deps source) (blurhash_cell cells) ∧
  memo_deps (resolved_cell cells) = (blurhash', thumbhash') ∧
  (blurhash' ≠ null ∨ thumbhash' ≠ null →
   memo_value (resolved_cell cells)
   = (coalesce blurhash' (coalesce thumbhash' null), true)).
Proof.
  intros blurhash thumbhash Ht Hb Hdeps Hvalue.
  destruct (hash_hook_ok _ _ _ _ (thumbhash_deps source) _ Ht) as [Ht' Hsame_t].
  destruct (hash_hook_ok _ _ _ _ (blurhash_deps source) _ Hb) as [Hb' Hsame_b].
  unfold useImageHashes.
  cbn [fmap option_fmap option_map thumbhash_cell blurhash_cell resolved_cell].
  change (useThumbhash n (Some (thumbhash_cell old)) source)
    with (useMemo same_hash_deps (Some (thumbhash_cell old))
            (fun _ => if (thumbhash_deps source).2
                      then val (placeholder thumbhash_site
                                  thumbHashStringToDataURL n
                                  (thumbhash_deps source).1)
                      else null)
            (thumbhash_deps source)).
  change (useBlurhash n (Some (blurhash_cell old)) source)
    with (useMemo same_hash_deps (Some (blurhash_cell old))
            (fun _ => if (blurhash_deps source).2
                      then val (placeholder blurhash_site
                                  blurhashStringToDataURL n
                                  (blurhash_deps source).1)
                      else null)
            (blurhash_deps source)).
  set (thumb' := useMemo same_hash_deps (Some (thumbhash_cell old)) _ _) in *.
  set (blur' := useMemo same_hash_deps (Some (blurhash_cell old)) _ _) in *.
  cbn zeta in *. split_and!; [done|done|..].
  - unfold useMemo at 1. rewrite Hdeps. unfold same_sources. cbn [fst snd].
    destruct (same_value blurhash (memo_value blur')) eqn:Hsb;
      [destruct (same_value thumbhash (memo_value thumb')) eqn:Hst|];
      cbn [andb memo_deps]; try done.
    rewrite Hdeps. f_equal; [by apply Hsame_b|by apply Hsame_t].
  - assert (memo_value blur' ≠ null ∨ memo_value thumb' ≠ null →
            isBlurhashString (or_empty (source_uri source))
            || isThumbhashString (or_empty (source_uri source)) = true)
      as Hhash.
    { intros Hsome. apply orb_true_iff.
      destruct (hash_cell_not_null _ _ _ _ _ Hb') as [Hnb _].
      destruct (hash_cell_not_null _ _ _ _ _ Ht') as [Hnt _].
      destruct Hsome as [Hs|Hs]; [left; by apply Hnb|right; by apply Hnt]. }
    unfold useMemo at 1. rewrite Hdeps. unfold same_sources. cbn [fst snd].
    destruct (same_value blurhash (memo_value blur')) eqn:Hsb;
      [destruct (same_value thumbhash (memo_value thumb')) eqn:Hst|];
      cbn [andb memo_value].
    + rewrite <- (Hsame_t Hst), <- (Hsame_b Hsb). apply Hvalue.
    + intros Hsome. by rewrite (Hhash Hsome).
    + intros Hsome. by rewrite (Hhash Hsome).
Qed.

Lemma mount_hash_invariant (p : Props) : hash_invariant (mount p).1.
Proof.
  rewrite mount_eq. unfold hash_invariant. cbn zeta.
  cbn [hash_cells props renders fst]. unfold useImageHashes.
  cbn [fmap option_fmap option_map thumbhash_cell blurhash_cell resolved_cell].
  pose proof (first_hash_hook_ok thumbhash_site thumbHashStringToDataURL
                (thumbhash_deps (source p))) as Ht.
  pose proof (first_hash_hook_ok blurhash_site blurhashStringToDataURL
                (blurhash_deps (source p))) as Hb.
  split_and!; [exact Ht|exact Hb|done|].
  destruct (hash_cell_not_null _ _ _ _ _ Ht) as [Hnt _].
  destruct (hash_cell_not_null _ _ _ _ _ Hb) as [Hnb _].
  intros Hsome. cbn [useMemo memo_value].
  assert (isBlurhashString (or_empty (source_uri (source p)))
          || isThumbhashString (or_empty (source_uri (source p))) = true)
    as ->; [|done].
  apply orb_true_iff.
  destruct Hsome as [Hs|Hs]; [left; by apply Hnb|right; by apply Hnt].
Qed.

Lemma rerender_hash_invariant (i : Instance) (c : HeaderCells) (p : Props) :
  hash_invariant i → hash_invariant (rerender i c p).1.
Proof.
  intros (Ht & Hb & Hdeps & Hvalue). rewrite rerender_eq.
  unfold hash_invariant. cbn zeta. cbn [hash_cells props renders fst].
  by apply (useImageHashes_invariant _ _ (source (props i))).
Qed.

Lemma step_hash_invariant (i : Instance) (e : Event) :
  hash_invariant i → hash_invariant (step i e).1.
Proof.
  intros Hinv. destruct e as [p|n o|]; cbn [step].
  - destruct (mounted i); [|done]. by apply rerender_hash_invariant.
  - destruct (pending i !! n) as [r|]; [|done].
    destruct (failure o) as [error|]; [done|].
    cbn [mounted header_cells blobs props]. destruct (mounted i && _); [|done].
    match goal with
    | |- context [rerender ?j ?c ?q] =>
        pose proof (rerender_hash_invariant j c q Hinv) as Hre;
        destruct (rerender j c q) as [i' actions]
    end.
    exact Hre.
  - by destruct (mounted i).
Qed.

Lemma reachable_hash_invariant (i : Instance) :
  reachable i → hash_invariant i.
Proof.
  induction 1; [apply mount_hash_invariant|by apply step_hash_invariant].
Qed.

(** Whatever the instance has gone through, a source whose URI is a
    recognised hash is resolved to the placeholder decoded from it: an object
    without headers whose URI is the [data:] URI of the hash with its prefix
    cut off, not a hash string. *)
Lemma hash_source_resolves_to_placeholder (p : Props) (es : list Event) :
  let i := (run p es).1 in
  let source := source (props i) in
  recognised_hash (source_uri source) = true →
  ∃ o,
    resolvedSource (hash_cells i) = val o ∧
    fields o
    = {| uri := Some (if isBlurhashString (or_empty (source_uri source))
                      then blurhashStringToDataURL (blurhash_deps source).1
                      else thumbHashStringToDataURL (thumbhash_deps source).1);
         headers := None; width := None; height := None |} ∧
    recognised_hash (uri (fields o)) = false.
Proof.
  intros i source Hhash.
  destruct (reachable_hash_invariant i (run_reachable p es))
    as (Ht & Hb & _ & Hvalue).
  fold source in Ht, Hb.
  destruct (hash_cell_not_null _ _ _ _ _ Ht) as [Hnt Hot].
  destruct (hash_cell_not_null _ _ _ _ _ Hb) as [Hnb Hob].
  unfold resolvedSource. unfold recognised_hash in Hhash.
  change (isBlurhashString (or_empty (source_uri source)))
    with (blurhash_deps source).2 in *.
  change (isThumbhashString (or_empty (source_uri source)))
    with (thumbhash_deps source).2 in *.
  destruct ((blurhash_deps source).2) eqn:Hblur.
  - destruct (Hob eq_refl) as (o & Ho & Hfields).
    rewrite Hvalue by (left; by apply Hnb). rewrite Ho. cbn.
    exists o. split_and!; [done|done|]. by rewrite Hfields.
  - cbn in Hhash. destruct (Hot Hhash) as (o & Ho & Hfields).
    rewrite Hvalue by (right; by apply Hnt). rewrite Ho.
    assert (memo_value (blurhash_cell (hash_cells i)) = null) as ->.
    { destruct Hb as [_ Hb]. by rewrite Hblur in Hb. }
    cbn. exists o. split_and!; [done|done|]. by rewrite Hfields.
Qed.

(** What the memo of [useImageHashes] does with sources that are not
    hashes: as long as the instance has been given no hash, the resolved
    source is the one it was mounted with. *)
Lemma plain_sources_resolve_to_first (p : Props) (es : list Event) :
  recognised_hash (source_uri (source p)) = false →
  renders_only (fun source => recognised_hash (source_uri source) = false) es →
  resolvedSource (hash_cells (run p es).1) = source p.
Proof.
  intros Hplain Hes.
  set (kept := fun i : Instance =>
         recognised_hash (source_uri (source (props i))) = false ∧
         memo_value (thumbhash_cell (hash_cells i)) = null ∧
         memo_value (blurhash_cell (hash_cells i)) = null ∧
         resolved_cell (hash_cells i) = mkMemo (null, null) (source p, false)).
  cut (kept (run p es).1).
  { intros (_ & _ & _ & Hcell). unfold resolvedSource. by rewrite Hcell. }
  apply (run_ind (fun i _ => kept i)
           (fun e => match e with
                     | Render p => recognised_hash (source_uri (source p)) = false
                     | _ => True
                     end)); [| |done].
  - rewrite mount_eq. unfold kept. cbn zeta. cbn [fst props hash_cells].
    by rewrite first_render_plain.
  - clear Hes. intros i log e He (Hprops & Ht & Hb & Hcell).
    assert (∀ j c q,
              hash_cells j = hash_cells i →
              recognised_hash (source_uri (source q)) = false →
              kept (rerender j c q).1) as Hrerender.
    { intros j c q Hj Hq. pose proof Hq as [Hqb Hqt]%recognised_hash_false.
      rewrite rerender_eq. unfold kept.
      cbn zeta. cbn [hash_cells props fst]. rewrite Hj. unfold useImageHashes.
      cbn [fmap option_fmap option_map thumbhash_cell blurhash_cell resolved_cell].
      assert (memo_value (useThumbhash (renders j)
                            (Some (thumbhash_cell (hash_cells i))) (source q))
              = null) as Ht'.
      { unfold useThumbhash, useMemo. destruct (same_hash_deps _ _); [done|].
        cbn. by rewrite Hqt. }
      assert (memo_value (useBlurhash (renders j)
                            (Some (blurhash_cell (hash_cells i))) (source q))
              = null) as Hb'.
      { unfold useBlurhash, useMemo. destruct (same_hash_deps _ _); [done|].
        cbn. by rewrite Hqb. }
      rewrite Ht', Hb', Hcell. done. }
    destruct e as [p'|n o|]; cbn [step].
    + destruct (mounted i); [|done]. by apply Hrerender.
    + destruct (pending i !! n) as [r|]; [|done].
      destruct (failure o) as [error|]; [done|].
      cbn [mounted header_cells blobs props]. destruct (mounted i && _); [|done].
      match goal with
      | |- context [rerender ?j ?c ?q] =>
          pose proof (Hrerender j c q eq_refl Hprops) as Hre;
          destruct (rerender j c q) as [i' actions]
      end.
      exact Hre.
    + by destruct (mounted i).
Qed.

End Instance.

(** *** The [fetchpriority] attribute *)

Lemma same_value_refl (x : nullable SourceObject) : same_value x x = true.
Proof. destruct x; [done..|]. cbn. by apply bool_decide_eq_true. Qed.

(** [getFetchPriorityFromImagePriority] gives ['low'] and ['high'] back and
    answers ['auto'] to everything else, ['normal'], [''], [null] and
    [undefined] included; the default that [ImageWrapper] puts in for a
    missing priority changes nothing. *)
Theorem fetchpriority_values (priority : nullable string) :
  fetchpriority priority = getFetchPriorityFromImagePriority priority ∧
  getFetchPriorityFromImagePriority priority
  = (if bool_decide (priority = val "low") then "low"
     else if bool_decide (priority = val "high") then "high"
     else "auto").
Proof.
  unfold fetchpriority, getFetchPriorityFromImagePriority.
  destruct priority as [| |s]; [done..|]. cbn [truthy].
  destruct s as [|c s]; [done|]. cbn [is_empty negb andb].
  split; [done|].
  destruct (decide (String c s = "low")) as [->|Hlow]; [done|].
  destruct (decide (String c s = "high")) as [->|Hhigh]; [done|].
  rewrite !(bool_decide_eq_false_2 (val _ = val _)) by congruence.
  rewrite bool_decide_eq_false_2; [done|].
  intros [?|[?|[]%elem_of_nil]%elem_of_cons]%elem_of_cons; congruence.
Qed.


(** *** The ledger of object URLs *)

Lemma creations_app (l1 l2 : list Action) :
  creations (l1 ++ l2) = creations l1 ++ creations l2.
Proof. apply omap_app. Qed.

Lemma creations_callbacks (callbacks : option (list (option Callback)))
    (act : Callback → Action) :
  (∀ cb, ∀ u, act cb ≠ createObjectURL u) →
  creations (for_each_callback callbacks act) = [].
Proof.
  intros Hact. unfold for_each_callback.
  induction (omap id (default [] callbacks)) as [|cb l IH]; [done|].
  cbn. specialize (Hact cb). destruct (act cb); try done.
  by destruct (Hact url).
Qed.

Lemma creations_started (started : option Request) :
  creations match started with
            | Some r => [fetch (request_source r) (request_cache r)]
            | None => []
            end = [].
Proof. by destruct started. Qed.

Lemma creations_cleanup (u : option string) : creations (revoke_cleanup u) = [].
Proof. destruct u as [u|]; [|done]. cbn. by destruct (is_empty u). Qed.

Lemma omap_NoDup_lookup {A B : Type} (f : A → option B) (l : list A)
    (i j : nat) (x y : A) (z : B) :
  NoDup (omap f l) →
  l !! i = Some x → l !! j = Some y → f x = Some z → f y = Some z → i = j.
Proof.
  revert i j. induction l as [|a l IH]; intros i j Hnd Hi Hj Hx Hy; [done|].
  assert (∀ k b, l !! k = Some b → f b = Some z → z ∈ omap f l) as Hin.
  { intros k b Hk Hb. apply list_elem_of_omap. exists b. split; [|done].
    by eapply list_elem_of_lookup_2. }
  cbn in Hnd. destruct i as [|i], j as [|j]; cbn in Hi, Hj; simplify_eq.
  - done.
  - rewrite Hx in Hnd. apply NoDup_cons in Hnd as [Hz _].
    destruct Hz. by eapply Hin.
  - rewrite Hy in Hnd. apply NoDup_cons in Hnd as [Hz _].
    destruct Hz. by eapply Hin.
  - f_equal. apply IH; try done. destruct (f a); [|done].
    by apply NoDup_cons in Hnd as [_ ?].
Qed.

Section Lifecycle.
Context `{Decoders}.

(** A render after which the clean-up of the second effect does not run
    makes and revokes no URL. *)
Lemma rerender_quiet (i : Instance) (p : Props) :
  url_invariant i →
  creations (rerender i (header_cells i) p).2 = [] ∧
  revocations (rerender i (header_cells i) p).2 = [].
Proof.
  intros [Hdeps _]. rewrite rerender_eq. cbn zeta. cbn [snd].
  rewrite decide_True by done. cbn [app].
  by rewrite creations_started, revocations_started.
Qed.

Lemma url_fresh (i : Instance) :
  url_invariant i → objectURL (header_cells i) ≠ Some (blob_url (blobs i)).
Proof.
  intros [_ [-> | (k & Hk & ->)]]; [done|].
  intros Heq. assert (blob_url k = blob_url (blobs i)) as Hsame by congruence.
  apply blob_url_inj in Hsame. lia.
Qed.

Lemma mount_ledger_invariant (p : Props) :
  ledger_invariant (mount p).1 (mount p).2.
Proof.
  rewrite mount_eq. cbn zeta. unfold ledger_invariant. cbn [fst snd blobs].
  rewrite creations_app, revocations_app, creations_started,
    revocations_started, creations_callbacks, revocations_callbacks by done.
  split; [done|]. by exists [].
Qed.

Lemma step_ledger_invariant (i : Instance) (log : list Action) (e : Event) :
  url_invariant i →
  ledger_invariant i log →
  ledger_invariant (step i e).1 (log ++ (step i e).2).
Proof.
  intros Hurl (Hmade & rest & Hrest & Hheld).
  unfold ledger_invariant. rewrite creations_app, revocations_app.
  destruct e as [p|n o|]; cbn [step].
  - destruct (mounted i) eqn:Hm.
    + destruct (rerender_quiet i p Hurl) as [-> ->].
      rewrite rerender_eq. cbn zeta. cbn [fst blobs mounted header_cells].
      rewrite !app_nil_r. split; [done|]. exists rest. split; [done|].
      intros _. by apply Hheld.
    + cbn [fst snd creations revocations omap]. rewrite !app_nil_r.
      split; [done|]. exists rest. split; [done|]. by rewrite Hm.
  - destruct (pending i !! n) as [r|].
    2:{ cbn. rewrite !app_nil_r. split; [done|]. by exists rest. }
    destruct (failure o) as [error|].
    { cbn [fst snd blobs mounted header_cells].
      change (creations (console_error error :: ?l)) with (creations l).
      change (revocations (console_error error :: ?l)) with (revocations l).
      rewrite creations_callbacks, revocations_callbacks, !app_nil_r by done.
      split; [done|]. by exists rest. }
    cbn [mounted header_cells blobs props].
    pose proof (url_fresh i Hurl) as Hfresh.
    destruct (mounted i) eqn:Hm; cbn [andb].
    + rewrite bool_decide_eq_false_2 by done. cbn [negb].
      rewrite rerender_eq. cbn zeta.
      cbn [fst snd blobs mounted header_cells objectURL revoke_deps].
      rewrite decide_False by (destruct Hurl as [-> _]; done).
      change (creations (createObjectURL ?u :: ?l)) with (u :: creations l).
      change (revocations (createObjectURL ?u :: ?l)) with (revocations l).
      rewrite creations_app, revocations_app, creations_started,
        revocations_started, creations_cleanup, !app_nil_r.
      rewrite (revocations_cleanup i Hurl). split.
      * rewrite Hmade, seq_S, fmap_app. done.
      * exists [blob_url (blobs i)]. split; [|done].
        rewrite Hrest, (Hheld eq_refl), <- app_assoc. done.
    + cbn [fst snd blobs mounted header_cells].
      change (creations [createObjectURL ?u]) with [u].
      change (revocations [createObjectURL ?u]) with (@nil string).
      rewrite app_nil_r. split.
      * rewrite Hmade, seq_S, fmap_app. done.
      * exists (rest ++ [blob_url (blobs i)]).
        split; [|done]. by rewrite Hrest, app_assoc.
  - destruct (mounted i) eqn:Hm.
    + cbn [fst snd blobs mounted header_cells].
      rewrite creations_cleanup, (revocations_cleanup i Hurl), app_nil_r.
      split; [done|]. exists []. split; [|done].
      by rewrite app_nil_r, Hrest, (Hheld eq_refl).
    + cbn [fst snd creations revocations omap]. rewrite !app_nil_r.
      split; [done|]. exists rest. split; [done|]. by rewrite Hm.
Qed.

Lemma run_ledger_invariant (p : Props) (es : list Event) :
  ledger_invariant (run p es).1 (run p es).2.
Proof.
  cut (url_invariant (run p es).1 ∧ ledger_invariant (run p es).1 (run p es).2).
  { by intros [_ ?]. }
  apply (run_ind (fun i log => url_invariant i ∧ ledger_invariant i log)
           (fun _ => True)).
  - split; [apply mount_url_invariant|apply mount_ledger_invariant].
  - intros i log e _ [Hurl Hledger].
    split; [by apply step_url_invariant|by apply step_ledger_invariant].
  - by apply Forall_forall.
Qed.

Lemma creations_NoDup (i : Instance) (log : list Action) :
  ledger_invariant i log → NoDup (creations log).
Proof.
  intros [-> _]. apply NoDup_fmap_2; [|apply NoDup_seq].
  intros m n. apply blob_url_inj.
Qed.



(** *** What the instance shows *)

Lemma rerender_display_invariant (i : Instance) (c : HeaderCells)
    (p : Props) :
  display_invariant (rerender i c p).1.
Proof.
  rewrite rerender_eq. unfold display_invariant. cbn zeta.
  cbn [fst mounted header_cells hash_cells fetch_deps objectURL rendered props].
  split; [done|]. by exists (renders i).
Qed.

Lemma mount_display_invariant (p : Props) : display_invariant (mount p).1.
Proof.
  rewrite mount_eq. unfold display_invariant. cbn zeta.
  cbn [fst mounted header_cells hash_cells fetch_deps objectURL rendered props].
  split; [done|]. by exists 0.
Qed.

Lemma step_display_invariant (i : Instance) (e : Event) :
  display_invariant i → display_invariant (step i e).1.
Proof.
  intros Hinv. destruct e as [p|n o|]; cbn [step].
  - destruct (mounted i); [|done]. apply rerender_display_invariant.
  - destruct (pending i !! n) as [r|]; [|done].
    destruct (failure o) as [error|]; [done|].
    cbn [mounted header_cells blobs props]. destruct (mounted i && _); [|done].
    match goal with
    | |- context [rerender ?j ?c ?q] =>
        pose proof (rerender_display_invariant j c q) as Hre;
        destruct (rerender j c q) as [i' actions]
    end.
    exact Hre.
  - destruct Hinv as [Hdeps Hshown]. destruct (mounted i) eqn:Hm.
    + by split.
    + split; [done|]. cbn [fst]. by rewrite Hm.
Qed.

Lemma reachable_display_invariant (i : Instance) :
  reachable i → display_invariant i.
Proof.
  induction 1; [apply mount_display_invariant|by apply step_display_invariant].
Qed.

Lemma run_app (p : Props) (es es' : list Event) :
  run p (es ++ es') = run_from (run p es).1 (run p es).2 es'.
Proof.
  unfold run. destruct (mount p) as [i log]. revert i log.
  induction es as [|e es IH]; intros i log; cbn; [done|].
  destruct (step i e) as [i' actions]. apply IH.
Qed.

(** An unmounted instance stays unmounted, shows nothing and revokes
    nothing. *)
Lemma step_unmounted (i : Instance) (e : Event) :
  mounted i = false →
  mounted (step i e).1 = false ∧ rendered (step i e).1 = rendered i ∧
  revocations (step i e).2 = [].
Proof.
  intros Hm. destruct e as [p|n o|]; cbn [step]; rewrite ?Hm; [done| |done].
  destruct (pending i !! n) as [r|]; [|done].
  destruct (failure o) as [error|].
  - cbn [fst snd mounted rendered].
    change (revocations (console_error error :: ?l)) with (revocations l).
    by rewrite revocations_callbacks.
  - cbn [mounted]. rewrite ?Hm. done.
Qed.

Lemma run_from_unmounted (i : Instance) (log : list Action) (es : list Event) :
  mounted i = false →
  mounted (run_from i log es).1 = false ∧
  rendered (run_from i log es).1 = rendered i ∧
  revocations (run_from i log es).2 = revocations log.
Proof.
  revert i log. induction es as [|e es IH]; intros i log Hm; [done|].
  cbn [run_from]. destruct (step_unmounted i e Hm) as (Hm' & Hr & Hrev).
  destruct (step i e) as [i' actions]. cbn [fst snd] in *.
  destruct (IH i' (log ++ actions) Hm') as (? & ? & Hrev').
  split_and!; [done|congruence|].
  by rewrite Hrev', revocations_app, Hrev, app_nil_r.
Qed.

Lemma elem_of_creations (u : string) (log : list Action) :
  u ∈ creations log ↔ createObjectURL u ∈ log.
Proof.
  unfold creations. rewrite list_elem_of_omap. split.
  - intros (a & Ha & Hu). destruct a; try done. by injection Hu as ->.
  - intros Hin. by exists (createObjectURL u).
Qed.

Lemma elem_of_revocations (u : string) (log : list Action) :
  u ∈ revocations log ↔ revokeObjectURL u ∈ log.
Proof.
  unfold revocations. rewrite list_elem_of_omap. split.
  - intros (a & Ha & Hu). destruct a; try done. by injection Hu as ->.
  - intros Hin. by exists (revokeObjectURL u).
Qed.

(** While the instance is mounted, the URLs it has made are the ones it has
    revoked, in the order it made them, and after them the one it holds in
    [objectURL], if it holds one: no URL is lost, none is revoked while it
    is held, none is made or revoked twice. *)
Theorem object_urls_accounted_for (p : Props) (es : list Event) :
  let i := (run p es).1 in
  let log := (run p es).2 in
  mounted i = true →
  creations log = revocations log ++ option_list (objectURL (header_cells i)) ∧
  NoDup (creations log).
Proof.
  intros i log Hm. pose proof (run_ledger_invariant p es) as Hledger.
  split; [|by eapply creations_NoDup].
  destruct Hledger as (_ & rest & Hrest & Hheld).
  subst i log. by rewrite <- (Hheld Hm).
Qed.

(** A fetch that settles well after the instance was unmounted still makes
    an object URL, and nothing ever revokes that URL: the effect has no
    clean-up that cancels the fetch, and the unmounted instance shows
    nothing and revokes nothing. *)
Theorem url_made_after_unmount_is_never_revoked (p : Props)
    (es es' : list Event) (n : nat) (r : Request) (o : FetchOutcome) :
  let i := (run p es).1 in
  mounted i = false →
  pending i !! n = Some r →
  failure o = None →
  (step i (Settle n o)).2 = [createObjectURL (blob_url (blobs i))] ∧
  (blob_url (blobs i) ∉ revocations (run p (es ++ (Settle n o :: es'))).2) ∧
  rendered (run p (es ++ (Settle n o :: es'))).1 = None.
Proof.
  intros i Hm Hr Ho.
  pose proof (run_ledger_invariant p es) as (Hmade & rest & Hrest & _).
  assert (rendered i = None) as Hnone.
  { destruct (reachable_display_invariant i (run_reachable p es)) as [_ Hi].
    by rewrite Hm in Hi. }
  fold i in Hmade. split_and!.
  - cbn [step]. rewrite Hr, Ho. cbn [mounted]. by rewrite Hm.
  - rewrite run_app. fold i.
    destruct (run_from_unmounted i (run p es).2 (Settle n o :: es') Hm)
      as (_ & _ & ->).
    intros Hin.
    assert (blob_url (blobs i) ∈ creations (run p es).2) as Hin'.
    { rewrite Hrest. apply elem_of_app. by left. }
    rewrite Hmade in Hin'. apply list_elem_of_fmap in Hin' as (k & Hk & Hseq).
    apply blob_url_inj in Hk as <-. apply elem_of_seq in Hseq. lia.
  - rewrite run_app. fold i.
    destruct (run_from_unmounted i (run p es).2 (Settle n o :: es') Hm)
      as (_ & -> & _).
    done.
Qed.


(** What one event revokes is nothing, or what a mounted instance holds. *)
Lemma step_revocations (i : Instance) (e : Event) :
  url_invariant i →
  revocations (step i e).2 = [] ∨
  mounted i = true ∧
  revocations (step i e).2 = option_list (objectURL (header_cells i)).
Proof.
  intros Hurl. destruct e as [p|n o|]; cbn [step].
  - left. destruct (mounted i); [|done]. by apply rerender_quiet.
  - destruct (pending i !! n) as [r|]; [|by left].
    destruct (failure o) as [error|].
    { left. cbn [snd].
      change (revocations (console_error error :: ?l)) with (revocations l).
      by apply revocations_callbacks. }
    cbn [mounted header_cells blobs props].
    destruct (mounted i) eqn:Hm; [|by left]. cbn [andb].
    pose proof (url_fresh i Hurl) as Hfresh. pose proof Hurl as [Hdeps _].
    rewrite bool_decide_eq_false_2 by done. cbn [negb].
    right. split; [done|]. rewrite rerender_eq. cbn zeta.
    cbn [fst snd blobs mounted header_cells objectURL revoke_deps].
    rewrite decide_False by by rewrite Hdeps.
    change (revocations (createObjectURL ?u :: ?l)) with (revocations l).
    rewrite revocations_app, revocations_started, app_nil_r.
    by apply revocations_cleanup.
  - destruct (mounted i) eqn:Hm; [|by left]. right.
    split; [done|]. by apply revocations_cleanup.
Qed.

(** Every revocation in the log comes after the making of its URL. *)
Lemma run_revocations_ordered (p : Props) (es : list Event) (k : nat)
    (u : string) :
  (run p es).2 !! k = Some (revokeObjectURL u) →
  ∃ j, j < k ∧ (run p es).2 !! j = Some (createObjectURL u).
Proof.
  set (ordered := fun log : list Action =>
         ∀ k u, log !! k = Some (revokeObjectURL u) →
                ∃ j, j < k ∧ log !! j = Some (createObjectURL u)).
  cut (url_invariant (run p es).1 ∧
       ledger_invariant (run p es).1 (run p es).2 ∧ ordered (run p es).2).
  { intros (_ & _ & Hord). apply Hord. }
  clear k u.
  apply (run_ind (fun i log => url_invariant i ∧ ledger_invariant i log ∧
                               ordered log) (fun _ => True)).
  - split_and!; [apply mount_url_invariant|apply mount_ledger_invariant|].
    intros k u Hk. exfalso.
    assert (u ∈ revocations (mount p).2) as Hin.
    { apply elem_of_revocations. by eapply list_elem_of_lookup_2. }
    rewrite mount_eq in Hin. cbn zeta in Hin. cbn [snd] in Hin.
    rewrite revocations_app, revocations_started, revocations_callbacks
      in Hin by done.
    by apply elem_of_nil in Hin.
  - intros i log e _ (Hurl & Hledger & Hord).
    split_and!; [by apply step_url_invariant|by apply step_ledger_invariant|].
    intros k u [Hk|[Hlen Hk]]%lookup_app_Some.
    + destruct (Hord k u Hk) as (j & Hj & Hlook). exists j.
      split; [done|]. by apply lookup_app_l_Some.
    + assert (u ∈ revocations (step i e).2) as Hin.
      { apply elem_of_revocations. by eapply list_elem_of_lookup_2. }
      destruct (step_revocations i e Hurl) as [Hnone|[Hm Hheld]].
      { rewrite Hnone in Hin. by apply elem_of_nil in Hin. }
      rewrite Hheld in Hin. destruct Hledger as (_ & rest & Hrest & Hrest').
      assert (u ∈ creations log) as Hmade.
      { rewrite Hrest, (Hrest' Hm). apply elem_of_app. by right. }
      apply elem_of_creations, list_elem_of_lookup_1 in Hmade as [j Hj].
      exists j. split; [|by apply lookup_app_l_Some].
      apply lookup_lt_Some in Hj. lia.
  - by apply Forall_forall.
Qed.

(** A URL is revoked only after it was made, and once: every
    [revokeObjectURL] in the log of an instance has the [createObjectURL] of
    the same URL before it, and no other [revokeObjectURL] of that URL
    beside it. *)
Theorem revocation_follows_creation (p : Props) (es : list Event) (k : nat)
    (u : string) :
  let log := (run p es).2 in
  log !! k = Some (revokeObjectURL u) →
  (∃ j, j < k ∧ log !! j = Some (createObjectURL u)) ∧
  (∀ k', log !! k' = Some (revokeObjectURL u) → k' = k).
Proof.
  intros log Hk. split; [by apply run_revocations_ordered|].
  intros k' Hk'.
  pose proof (run_ledger_invariant p es) as Hledger.
  pose proof (creations_NoDup _ _ Hledger) as Hnd.
  destruct Hledger as (_ & rest & Hrest & _).
  rewrite Hrest in Hnd. apply NoDup_app in Hnd as (Hnd & _ & _).
  by eapply (omap_NoDup_lookup _ _ _ _ _ _ u Hnd Hk' Hk).
Qed.


(** The picture of a source with headers is only ever shown from a live
    object URL: when the resolved source has headers and an [img] is
    rendered, its [src] is the [objectURL] of the instance, a URL that the
    instance has made and has not revoked; the URI of the source itself is
    not used. *)
Theorem shown_object_url_is_live (p : Props) (es : list Event) (img : Img) :
  let i := (run p es).1 in
  let log := (run p es).2 in
  rendered i = Some img →
  source_headers (resolvedSource (hash_cells i)) ≠ None →
  ∃ u,
    src img = Some u ∧ objectURL (header_cells i) = Some u ∧
    createObjectURL u ∈ log ∧ revokeObjectURL u ∉ log.
Proof.
  intros i log Himg Hheaders.
  destruct (reachable_display_invariant i (run_reachable p es)) as [_ Hshown].
  destruct (reachable_url_invariant i (run_reachable p es)) as [_ Hurl].
  destruct (mounted i) eqn:Hm; [|congruence].
  destruct Hshown as [n Hshown]. rewrite Himg in Hshown.
  destruct (resolvedSource (hash_cells i)) as [| |o]; [done..|].
  cbn in Hheaders, Hshown. destruct (headers (fields o)) as [h|]; [|done].
  destruct Hurl as [Hnone|(k & _ & Hk)].
  { by rewrite Hnone in Hshown. }
  rewrite Hk in Hshown. cbn in Hshown. injection Hshown as ->.
  pose proof (run_ledger_invariant p es) as Hledger.
  pose proof (creations_NoDup _ _ Hledger) as Hnd.
  destruct Hledger as (_ & rest & Hheld & Hrest).
  fold i log in Hnd, Hheld, Hrest. rewrite (Hrest Hm), Hk in Hheld.
  exists (blob_url k). cbn [src]. split_and!; [done|done|..].
  - apply elem_of_creations. rewrite Hheld. apply elem_of_app. right.
    by apply list_elem_of_singleton.
  - intros Hin%elem_of_revocations. rewrite Hheld in Hnd.
    apply NoDup_app in Hnd as (_ & Hnot & _).
    apply (Hnot _ Hin). by apply list_elem_of_singleton.
Qed.


(** *** The [onMount] callbacks *)






(** *** Renders that change nothing *)

Lemma deps_of_uri (source source' : nullable SourceObject) :
  source_uri source = source_uri source' →
  thumbhash_deps source = thumbhash_deps source' ∧
  blurhash_deps source = blurhash_deps source'.
Proof. unfold thumbhash_deps, blurhash_deps. by intros ->. Qed.

(** With the URI of the last render, the hooks of [useImageHashes] find
    their dependencies unchanged and return what they hold. *)
Lemma useImageHashes_same_uri (i : Instance) (n : nat)
    (source' : nullable SourceObject) :
  hash_invariant i →
  source_uri source' = source_uri (source (props i)) →
  useImageHashes n (Some (hash_cells i)) source' = hash_cells i.
Proof.
  intros ([Ht _] & [Hb _] & Hdeps & _) [Ht' Hb']%deps_of_uri.
  rewrite <- Ht' in Ht. rewrite <- Hb' in Hb.
  destruct (hash_cells i) as [thumb blur resolved].
  cbn [thumbhash_cell blurhash_cell resolved_cell] in *.
  destruct thumb as [dt vt], blur as [db vb]. cbn [memo_deps memo_value] in *.
  subst dt db. unfold useImageHashes.
  cbn [fmap option_fmap option_map thumbhash_cell blurhash_cell resolved_cell].
  rewrite useThumbhash_hit, useBlurhash_hit. cbn [memo_value].
  f_equal. unfold useMemo. rewrite Hdeps. unfold same_sources. cbn [fst snd].
  by rewrite !same_value_refl.
Qed.

Lemma img_element_same (n m : nat)
    (resolved source source' : nullable SourceObject) (url : option string)
    (flag : bool) :
  source_uri source = source_uri source' →
  img_element (headers_result n resolved url) source flag
  = img_element (headers_result m resolved url) source' flag.
Proof.
  intros Huri. destruct resolved as [| |o]; [done..|]. cbn.
  destruct (headers (fields o)); cbn; [|by rewrite Huri].
  destruct url as [u|]; [|done]. destruct (is_empty u); [done|].
  cbn. by rewrite Huri.
Qed.

(** A render with the URI of the last one, with whatever cells of
    [useHeaders] hold the dependencies that its effects ran with. *)
Lemma rerender_same_uri (i : Instance) (c : HeaderCells) (p : Props) :
  hash_invariant i →
  fetch_deps c = resolvedSource (hash_cells i) →
  source_uri (source p) = source_uri (source (props i)) →
  hash_cells (rerender i c p).1 = hash_cells i ∧
  pending (rerender i c p).1 = pending i ∧
  fetches (rerender i c p).2 = [] ∧
  (revoke_deps c = objectURL c → (rerender i c p).2 = []).
Proof.
  intros Hhash Hdeps Huri. rewrite rerender_eq. cbn zeta.
  rewrite (useImageHashes_same_uri i _ _ Hhash Huri).
  rewrite Hdeps, same_value_refl. cbn [fst snd hash_cells pending option_list].
  rewrite !app_nil_r. split_and!; [done|done| |].
  - case_decide; [done|]. destruct (revoke_deps c) as [u|]; [|done].
    cbn. by destruct (is_empty u).
  - intros ->. by rewrite decide_True.
Qed.

(** A render whose source has the URI of the source of the last render
    starts no fetch and revokes nothing, even if the source is another
    object, has other headers or comes with another [cachePolicy] or other
    callbacks; the cells of the hooks stay as they are, and the [img] is there
    or not as before, with the [src], the [key] and the hash flag it had.
    The rest of the element is not spoken of: the [srcSet] and [sizes] of the
    [img] follow the new source.  Source objects are not changed in place: if
    the new source is the object that the instance has resolved, it has the
    fields it had. *)
Theorem render_with_same_uri_is_inert (p : Props) (es : list Event)
    (q : Props) :
  let i := (run p es).1 in
  mounted i = true →
  source_uri (source q) = source_uri (source (props i)) →
  (same_value (source q) (resolvedSource (hash_cells i)) = true →
   source q = resolvedSource (hash_cells i)) →
  (step i (Render q)).2 = [] ∧
  src <$> rendered (step i (Render q)).1 = src <$> rendered i ∧
  key <$> rendered (step i (Render q)).1 = key <$> rendered i ∧
  isImageHash <$> rendered (step i (Render q)).1
  = isImageHash <$> rendered i ∧
  hash_cells (step i (Render q)).1 = hash_cells i ∧
  header_cells (step i (Render q)).1 = header_cells i ∧
  pending (step i (Render q)).1 = pending i.
Proof.
  intros i Hm Huri _.
  pose proof (reachable_hash_invariant i (run_reachable p es)) as Hhash.
  destruct (reachable_url_invariant i (run_reachable p es)) as [Hrevoke _].
  destruct (reachable_display_invariant i (run_reachable p es))
    as [Hdeps Hshown].
  clearbody i. rewrite Hm in Hshown. destruct Hshown as [n Hshown].
  cbn [step]. rewrite Hm.
  destruct (rerender_same_uri i (header_cells i) q Hhash Hdeps Huri)
    as (Hcells & Hpending & _ & Hnone).
  assert (rendered (rerender i (header_cells i) q).1 = rendered i) as Hsame.
  { rewrite rerender_eq. cbn zeta. cbn [fst rendered].
    rewrite (useImageHashes_same_uri i _ _ Hhash Huri), Hshown.
    by apply img_element_same. }
  rewrite Hsame. split_and!; [by apply Hnone|done|done|done|done| |done].
  - rewrite rerender_eq. cbn zeta. cbn [fst header_cells].
    rewrite (useImageHashes_same_uri i _ _ Hhash Huri).
    destruct (header_cells i) as [u d r] eqn:Hcell. cbn in *. by subst.
Qed.

(** One event starts at most one fetch, and only a render by the parent
    starts one. *)
Lemma step_fetches (i : Instance) (e : Event) :
  hash_invariant i → display_invariant i →
  length (fetches (step i e).2)
  ≤ match e with Render _ => 1 | _ => 0 end.
Proof.
  intros Hhash [Hdeps _]. destruct e as [p|n o|]; cbn [step].
  - destruct (mounted i); [|cbn; lia]. rewrite rerender_eq. cbn zeta.
    cbn [snd]. unfold fetches. rewrite omap_app, length_app.
    assert (∀ u, omap (fun a => match a with
                                | fetch o _ => Some o
                                | _ => None
                                end) (revoke_cleanup u) = []) as Hclean.
    { intros [u|]; [|done]. cbn. by destruct (is_empty u). }
    set (started := if same_value _ _ then None else _).
    case_decide; rewrite ?Hclean; destruct started; cbn; lia.
  - destruct (pending i !! n) as [r|]; [|done].
    destruct (failure o) as [error|].
    { cbn [snd]. unfold fetches, for_each_callback. cbn [omap].
      by induction (omap id (default [] (request_onError r))). }
    cbn [mounted header_cells blobs props]. destruct (mounted i && _); [|done].
    match goal with
    | |- context [rerender ?j ?c ?q] =>
        destruct (rerender_same_uri j c q Hhash Hdeps eq_refl)
          as (_ & _ & Hnone & _);
        destruct (rerender j c q) as [i' actions]
    end.
    cbn [snd fst] in *. change (fetches (createObjectURL ?u :: ?l))
      with (fetches l). by rewrite Hnone.
  - destruct (mounted i); [|done]. cbn [snd].
    destruct (revoke_deps (header_cells i)) as [u|]; [|done].
    cbn. by destruct (is_empty u).
Qed.


Lemma fetches_app (l1 l2 : list Action) :
  fetches (l1 ++ l2) = fetches l1 ++ fetches l2.
Proof. apply omap_app. Qed.

Lemma sources_given_app (es es' : list Event) :
  sources_given (es ++ es') = sources_given es ++ sources_given es'.
Proof. apply omap_app. Qed.

(** Fetches are started by the mount and by renders of the parent only,
    one at most each time: the state update of a fetch that has settled
    renders the instance again without starting a fetch, so the fetches of a
    history are no more than its renders by the parent and one. *)
Theorem fetches_bounded_by_renders (p : Props) (es : list Event) :
  (∀ n o, fetches (step (run p es).1 (Settle n o)).2 = []) ∧
  length (fetches (run p es).2) ≤ S (length (sources_given es)).
Proof.
  split.
  - intros n o. apply length_zero_iff_nil, Nat.le_0_r.
    apply (step_fetches _ (Settle n o)).
    + apply reachable_hash_invariant, run_reachable.
    + apply reachable_display_invariant, run_reachable.
  - induction es as [|e es IH] using rev_ind.
    + rewrite run_nil, mount_eq. cbn zeta. cbn [snd].
      rewrite fetches_app, length_app.
      assert (fetches (for_each_callback (events p ≫= onMount) call_onMount)
              = []) as ->.
      { unfold for_each_callback.
        by induction (omap id (default [] (events p ≫= onMount))). }
      destruct (fetch_effect _ _ _); cbn; lia.
    + rewrite run_snoc. cbn [snd].
      rewrite fetches_app, sources_given_app, !length_app.
      pose proof (step_fetches (run p es).1 e
                    (reachable_hash_invariant _ (run_reachable p es))
                    (reachable_display_invariant _ (run_reachable p es)))
        as Hstep.
      destruct e; cbn in *; lia.
Qed.

(** *** The key and the hash flag of the picture *)

Lemma useImageHashes_flag (n : nat) (old : HashCells)
    (previous source : nullable SourceObject) :
  let blurhash := memo_value (blurhash_cell old) in
  let thumbhash := memo_value (thumbhash_cell old) in
  hash_cell_ok thumbhash_site thumbHashStringToDataURL n
    (thumbhash_deps previous) (thumbhash_cell old) →
  hash_cell_ok blurhash_site blurhashStringToDataURL n
    (blurhash_deps previous) (blurhash_cell old) →
  memo_deps (resolved_cell old) = (blurhash, thumbhash) →
  (blurhash ≠ null ∨ thumbhash ≠ null →
   memo_value (resolved_cell old)
   = (coalesce blurhash (coalesce thumbhash null), true)) →
  (blurhash = null → thumbhash = null →
   (memo_value (resolved_cell old)).2 = false) →
  let cells := useImageHashes n (Some old) source in
  memo_value (blurhash_cell cells) = null →
  memo_value (thumbhash_cell cells) = null →
  (memo_value (resolved_cell cells)).2 = false.
Proof.
  intros blurhash thumbhash Ht Hb Hdeps Hvalue Hflag cells.
  destruct (useImageHashes_invariant n old previous source Ht Hb Hdeps Hvalue)
    as (Ht' & Hb' & _ & _).
  fold cells in Ht', Hb'.
  destruct (hash_cell_not_null _ _ _ _ _ Ht') as [Hnt _].
  destruct (hash_cell_not_null _ _ _ _ _ Hb') as [Hnb _].
  intros Hbnull Htnull.
  assert ((blurhash_deps source).2 = false) as Hbf.
  { apply not_true_is_false. intros Htrue%Hnb. done. }
  assert ((thumbhash_deps source).2 = false) as Htf.
  { apply not_true_is_false. intros Htrue%Hnt. done. }
  subst cells. unfold useImageHashes in *.
  cbn [fmap option_fmap option_map thumbhash_cell blurhash_cell resolved_cell]
    in *.
  rewrite Hbnull, Htnull. unfold useMemo. rewrite Hdeps.
  unfold same_sources. cbn [fst snd].
  destruct (same_value blurhash null) eqn:Hsb;
    [destruct (same_value thumbhash null) eqn:Hst|]; cbn [andb memo_value snd].
  - apply Hflag; [by destruct blurhash|by destruct thumbhash].
  - unfold blurhash_deps, thumbhash_deps in Hbf, Htf. cbn in Hbf, Htf.
    by rewrite Hbf, Htf.
  - unfold blurhash_deps, thumbhash_deps in Hbf, Htf. cbn in Hbf, Htf.
    by rewrite Hbf, Htf.
Qed.

Lemma mount_flag_invariant (p : Props) : flag_invariant (mount p).1.
Proof.
  rewrite mount_eq. unfold flag_invariant. cbn zeta. cbn [fst hash_cells].
  unfold useImageHashes, useThumbhash, useBlurhash.
  cbn [fmap option_fmap option_map thumbhash_cell blurhash_cell resolved_cell
       useMemo memo_value snd].
  destruct (isBlurhashString _); [done|].
  destruct (isThumbhashString _); done.
Qed.

Lemma rerender_flag_invariant (i : Instance) (c : HeaderCells) (p : Props) :
  hash_invariant i → flag_invariant i → flag_invariant (rerender i c p).1.
Proof.
  intros (Ht & Hb & Hdeps & Hvalue) Hflag. rewrite rerender_eq.
  unfold flag_invariant. cbn zeta. cbn [fst hash_cells].
  by apply (useImageHashes_flag _ _ (source (props i))).
Qed.

Lemma step_flag_invariant (i : Instance) (e : Event) :
  hash_invariant i → flag_invariant i → flag_invariant (step i e).1.
Proof.
  intros Hhash Hinv. destruct e as [p|n o|]; cbn [step].
  - destruct (mounted i); [|done]. by apply rerender_flag_invariant.
  - destruct (pending i !! n) as [r|]; [|done].
    destruct (failure o) as [error|]; [done|].
    cbn [mounted header_cells blobs props]. destruct (mounted i && _); [|done].
    match goal with
    | |- context [rerender ?j ?c ?q] =>
        pose proof (rerender_flag_invariant j c q Hhash Hinv) as Hre;
        destruct (rerender j c q) as [i' actions]
    end.
    exact Hre.
  - by destruct (mounted i).
Qed.

Lemma reachable_flag_invariant (i : Instance) :
  reachable i → flag_invariant i.
Proof.
  induction 1 as [p|i e Hi IH]; [apply mount_flag_invariant|].
  apply step_flag_invariant; [by apply reachable_hash_invariant|done].
Qed.

(** The [img] that an instance shows has the URI of the source of the last
    render as its key, and is marked as a hash placeholder exactly when that
    URI is a recognised hash: the memo of [useImageHashes], which does not
    list [isImageHash] among its dependencies, never holds a stale flag. *)
Theorem key_and_hash_flag_follow_source (p : Props) (es : list Event)
    (img : Img) :
  let i := (run p es).1 in
  rendered i = Some img →
  key img = source_uri (source (props i)) ∧
  isImageHash img = recognised_hash (source_uri (source (props i))).
Proof.
  intros i Himg.
  destruct (reachable_display_invariant i (run_reachable p es)) as [_ Hshown].
  destruct (reachable_hash_invariant i (run_reachable p es))
    as (Ht & Hb & _ & Hvalue).
  pose proof (reachable_flag_invariant i (run_reachable p es)) as Hflag.
  clearbody i. destruct (mounted i); [|congruence].
  destruct Hshown as [n Hshown]. rewrite Himg in Hshown.
  unfold img_element in Hshown.
  destruct (headers_result _ _ _) as [| |shown]; [done..|].
  injection Hshown as ->. cbn [key isImageHash]. split; [done|].
  destruct (hash_cell_not_null _ _ _ _ _ Ht) as [Hnt _].
  destruct (hash_cell_not_null _ _ _ _ _ Hb) as [Hnb _].
  unfold recognised_hash.
  change (isBlurhashString (or_empty (source_uri (source (props i)))))
    with (blurhash_deps (source (props i))).2 in *.
  change (isThumbhashString (or_empty (source_uri (source (props i)))))
    with (thumbhash_deps (source (props i))).2 in *.
  destruct ((blurhash_deps (source (props i))).2) eqn:Hblur.
  { rewrite Hvalue; [done|]. left. by apply Hnb. }
  destruct ((thumbhash_deps (source (props i))).2) eqn:Hthumb.
  { rewrite Hvalue; [done|]. right. by apply Hnt. }
  cbn. apply Hflag.
  - destruct Hb as [_ Hb]. by rewrite Hblur in Hb.
  - destruct Ht as [_ Ht]. by rewrite Hthumb in Ht.
Qed.


(** *** Where a fetched source comes from *)

(** What a render resolves: what the memo of [useImageHashes] held, the
    source of the render, or a source without headers. *)
Lemma resolved_origin (i : Instance) (source' : nullable SourceObject) :
  hash_invariant i →
  let cells := useImageHashes (renders i) (Some (hash_cells i)) source' in
  resolvedSource cells = resolvedSource (hash_cells i) ∨
  resolvedSource cells = source' ∨
  source_headers (resolvedSource cells) = None.
Proof.
  intros (Ht & Hb & Hdeps & Hvalue) cells.
  destruct (useImageHashes_invariant _ _ (source (props i)) source'
              Ht Hb Hdeps Hvalue) as (Ht' & Hb' & _ & Hvalue').
  fold cells in Ht', Hb', Hvalue'.
  destruct (hash_cell_not_null _ _ _ _ _ Ht') as [Hnt Hot].
  destruct (hash_cell_not_null _ _ _ _ _ Hb') as [Hnb Hob].
  unfold resolvedSource.
  destruct (decide (memo_value (blurhash_cell cells) = null)) as [Hbn|Hbn].
  2:{ right. right. rewrite Hvalue' by by left.
      destruct (Hob (proj1 Hnb Hbn)) as (o & -> & Ho). cbn. by rewrite Ho. }
  destruct (decide (memo_value (thumbhash_cell cells) = null)) as [Htn|Htn].
  2:{ right. right. rewrite Hvalue' by by right. rewrite Hbn.
      destruct (Hot (proj1 Hnt Htn)) as (o & -> & Ho). cbn. by rewrite Ho. }
  subst cells. unfold useImageHashes in *.
  cbn [fmap option_fmap option_map thumbhash_cell blurhash_cell resolved_cell]
    in *.
  rewrite Hbn, Htn. unfold useMemo.
  destruct (same_sources _ _); [by left|].
  cbn [memo_value fst]. destruct (_ || _); [by right; right|by right; left].
Qed.

Lemma fetch_effect_source (resolved : nullable SourceObject)
    (policy : option CachePolicy) (callbacks : option (list (option Callback)))
    (r : Request) :
  fetch_effect resolved policy callbacks = Some r →
  resolved = val (request_source r) ∧ source_headers resolved ≠ None ∧
  request_cache r
  = (if decide (policy = Some cache_none) then no_cache else default_cache).
Proof.
  unfold fetch_effect. destruct resolved as [| |o]; [done..|]. cbn.
  destruct (headers (fields o)) as [h|]; [|done].
  destruct (uri (fields o)) as [u|]; [|done].
  destruct (is_empty u); [done|]. by intros [= <-].
Qed.

Lemma given_invariant_mono (given more : list (nullable SourceObject))
    (i : Instance) (log : list Action) :
  given_invariant given i log → given_invariant (given ++ more) i log.
Proof.
  intros (Hs & Hr & Hp & Hl). split_and!.
  - apply elem_of_app. by left.
  - destruct Hr as [Hr|Hr]; [left; apply elem_of_app; by left|by right].
  - eapply Forall_impl; [exact Hp|]. intros r Hin. apply elem_of_app. by left.
  - eapply Forall_impl; [exact Hl|].
    intros [] Hin; try done; apply elem_of_app; by left.
Qed.

Lemma rerender_given_invariant (given : list (nullable SourceObject))
    (i : Instance) (c : HeaderCells) (p : Props) (log : list Action) :
  hash_invariant i →
  given_invariant given i log →
  source p ∈ given →
  given_invariant given (rerender i c p).1 (log ++ (rerender i c p).2).
Proof.
  intros Hhash (Hs & Hr & Hp & Hl) Hsource.
  pose proof (resolved_origin i (source p) Hhash) as Horigin.
  rewrite rerender_eq. cbn zeta in *.
  set (cells := useImageHashes (renders i) (Some (hash_cells i)) (source p))
    in *.
  cbn [fst snd props hash_cells pending].
  assert (resolvedSource cells ∈ given ∨
          source_headers (resolvedSource cells) = None) as Hr'.
  { destruct Horigin as [-> | [-> | Hnone]]; [done|by left|by right]. }
  set (started := if same_value _ _ then None else _).
  assert (∀ r, started = Some r → val (request_source r) ∈ given) as Hstarted.
  { subst started. intros r. case_match; [done|].
    intros (Hres & Hheaders & _)%fetch_effect_source.
    destruct Hr' as [Hin|Hnone]; [by rewrite <- Hres|done]. }
  split_and!; [done|done|..].
  - apply Forall_app. split; [done|].
    destruct started as [r|]; [|done]. constructor; [by apply Hstarted|done].
  - rewrite !Forall_app. split_and!; [done| |].
    + case_decide; [done|]. destruct (revoke_deps c) as [u|]; [|done].
      cbn. destruct (is_empty u); [done|]. by repeat constructor.
    + destruct started as [r|]; [|done]. constructor; [by apply Hstarted|done].
Qed.

Lemma run_given_invariant (p : Props) (es : list Event) :
  given_invariant (source p :: sources_given es) (run p es).1 (run p es).2.
Proof.
  induction es as [|e es IH] using rev_ind.
  - rewrite run_nil. pose proof (mount_resolves_source p) as [Hplain Hhash].
    cbn zeta in *. rewrite mount_eq in *. cbn zeta in *.
    cbn [fst snd props hash_cells pending] in *.
    set (resolved := resolvedSource (useImageHashes 0 None (source p))) in *.
    assert (resolved ∈ [source p] ∨ source_headers resolved = None) as Hr.
    { destruct (recognised_hash (source_uri (source p))).
      - right. destruct (Hhash eq_refl) as (o & payload & -> & Hh & _).
        done.
      - left. rewrite Hplain by done. by apply list_elem_of_singleton. }
    assert (∀ r, fetch_effect resolved (cachePolicy p) (events p ≫= onError)
                 = Some r → val (request_source r) ∈ [source p]) as Hstarted.
    { intros r (Hres & Hheaders & _)%fetch_effect_source.
      destruct Hr as [Hin|Hnone]; [by rewrite <- Hres|done]. }
    split_and!; [by apply list_elem_of_singleton|done|..].
    + destruct (fetch_effect _ _ _) as [r|]; [|done].
      constructor; [by apply Hstarted|done].
    + apply Forall_app. split.
      * unfold for_each_callback. by apply Forall_fmap, Forall_forall.
      * destruct (fetch_effect _ _ _) as [r|]; [|done].
        constructor; [by apply Hstarted|done].
  - rewrite run_snoc, sources_given_app. cbn [fst snd].
    pose proof (reachable_hash_invariant _ (run_reachable p es)) as Hhash.
    set (i := (run p es).1) in *. set (log := (run p es).2) in *.
    clearbody i log.
    apply (given_invariant_mono _ (sources_given [e])) in IH.
    change (source p :: sources_given es ++ sources_given [e])
      with ((source p :: sources_given es) ++ sources_given [e]).
    set (given := (source p :: sources_given es) ++ sources_given [e]) in *.
    destruct e as [q|n o|]; cbn [step].
    + destruct (mounted i); [|by rewrite app_nil_r].
      apply rerender_given_invariant; [done|done|].
      subst given. apply elem_of_app. right. by apply list_elem_of_singleton.
    + destruct (pending i !! n) as [r|] eqn:Hn; [|by rewrite app_nil_r].
      pose proof IH as (Hs & Hr & Hp & Hl).
      pose proof (Forall_lookup_1 _ _ _ _ Hp Hn) as Hgood.
      assert (Forall (fun r => val (request_source r) ∈ given)
                (delete n (pending i))) as Hdel by by apply Forall_delete.
      destruct (failure o) as [error|].
      * split_and!; [done|done|done|]. cbn [snd].
        apply Forall_app. split; [done|]. constructor; [done|].
        unfold for_each_callback. by apply Forall_fmap, Forall_forall.
      * cbn [mounted header_cells blobs props]. destruct (mounted i && _).
        -- match goal with
           | |- context [rerender ?j ?c ?q] =>
               pose proof (rerender_given_invariant given j c q
                             (log ++ [createObjectURL (blob_url (blobs i))])
                             Hhash) as Hre;
               destruct (rerender j c q) as [i' actions]
           end.
           cbn [fst snd] in *. rewrite <- app_assoc in Hre.
           apply Hre; [|done]. split_and!; [done|done|done|].
           apply Forall_app. split; [done|]. by repeat constructor.
        -- split_and!; [done|done|done|]. cbn [snd].
           apply Forall_app. split; [done|]. by repeat constructor.
    + destruct (mounted i); [|by rewrite app_nil_r].
      destruct IH as (Hs & Hr & Hp & Hl). split_and!; [done|done|done|].
      cbn [snd]. apply Forall_app. split; [done|].
      destruct (revoke_deps (header_cells i)) as [u|]; [|done].
      cbn. destruct (is_empty u); [done|]. by repeat constructor.
Qed.

(** A fetch is only ever made for a source that the parent has passed in,
    at the mount or at a render, and that has headers and a URI that is not
    empty: the placeholder that a hash is decoded into is never fetched. *)
Theorem fetched_sources_are_given (p : Props) (es : list Event)
    (o : SourceObject) (cache : RequestCache) :
  fetch o cache ∈ (run p es).2 →
  val o ∈ source p :: sources_given es ∧
  headers (fields o) ≠ None ∧ or_empty (uri (fields o)) ≠ "".
Proof.
  intros Hin.
  destruct (run_given_invariant p es) as (_ & _ & _ & Hgiven).
  destruct (run_fetch_invariant p es) as [_ Hfetch].
  rewrite Forall_forall in Hgiven, Hfetch.
  split; [apply (Hgiven _ Hin)|apply (Hfetch _ Hin)].
Qed.


(** *** The cache mode of a fetch *)

(** As long as every render of an instance comes with the same
    [cachePolicy], every fetch it makes has the cache mode of that policy:
    ['no-cache'] for ['none'], and the browser's default for any other
    policy and for a missing one. *)
Theorem fetch_cache_follows_policy (p : Props) (es : list Event)
    (o : SourceObject) (cache : RequestCache) :
  Forall (fun e => match e with
                   | Render q => cachePolicy q = cachePolicy p
                   | _ => True
                   end) es →
  fetch o cache ∈ (run p es).2 →
  cache = if decide (cachePolicy p = Some cache_none)
          then no_cache else default_cache.
Proof.
  set (mode := if decide (cachePolicy p = Some cache_none)
               then no_cache else default_cache).
  set (kept := fun (i : Instance) (log : list Action) =>
         cachePolicy (props i) = cachePolicy p ∧
         Forall (fun a => match a with
                          | fetch _ c => c = mode
                          | _ => True
                          end) log).
  intros Hes Hin. cut (kept (run p es).1 (run p es).2).
  { intros [_ Hlog]. rewrite Forall_forall in Hlog. apply (Hlog _ Hin). }
  clear Hin.
  assert (∀ j c q log,
            cachePolicy q = cachePolicy p →
            Forall (fun a => match a with
                             | fetch _ c => c = mode
                             | _ => True
                             end) log →
            kept (rerender j c q).1 (log ++ (rerender j c q).2)) as Hrerender.
  { intros j c q log Hq Hlog. rewrite rerender_eq. cbn zeta.
    split; [done|]. cbn [snd]. rewrite !Forall_app. split_and!; [done| |].
    - case_decide; [done|]. destruct (revoke_deps c) as [u|]; [|done].
      cbn. destruct (is_empty u); [done|]. by repeat constructor.
    - case_match eqn:Hstarted; [|done]. constructor; [|done].
      case_match; [done|].
      apply fetch_effect_source in Hstarted as (_ & _ & ->).
      by rewrite Hq. }
  apply (run_ind kept
           (fun e => match e with
                     | Render q => cachePolicy q = cachePolicy p
                     | _ => True
                     end)); [| |done].
  - rewrite mount_eq. cbn zeta.
    split; [done|]. cbn [snd]. apply Forall_app. split.
    + unfold for_each_callback. by apply Forall_fmap, Forall_forall.
    + case_match eqn:Hstarted; [|done]. constructor; [|done].
      by apply fetch_effect_source in Hstarted as (_ & _ & ->).
  - intros i log e He [Hpolicy Hlog]. destruct e as [q|n o'|]; cbn [step].
    + destruct (mounted i); [|by rewrite app_nil_r]. by apply Hrerender.
    + destruct (pending i !! n) as [r|]; [|by rewrite app_nil_r].
      destruct (failure o') as [error|].
      * split; [done|]. cbn [snd]. apply Forall_app. split; [done|].
        constructor; [done|]. unfold for_each_callback.
        by apply Forall_fmap, Forall_forall.
      * cbn [mounted header_cells blobs props]. destruct (mounted i && _).
        -- match goal with
           | |- context [rerender ?j ?c ?q] =>
               pose proof (Hrerender j c q
                             (log ++ [createObjectURL (blob_url (blobs i))])
                             Hpolicy) as Hre;
               destruct (rerender j c q) as [i' actions]
           end.
           cbn [fst snd] in *. rewrite <- app_assoc in Hre. apply Hre.
           apply Forall_app. split; [done|]. by repeat constructor.
        -- split; [done|]. cbn [snd]. apply Forall_app. split; [done|].
           by repeat constructor.
    + destruct (mounted i); [|by rewrite app_nil_r]. split; [done|].
      cbn [snd]. apply Forall_app. split; [done|].
      destruct (revoke_deps (header_cells i)) as [u|]; [|done].
      cbn. destruct (is_empty u); [done|]. by repeat constructor.
Qed.


(** *** When nothing is rendered *)

(** A mounted instance renders nothing in two cases only: its resolved
    source is [null] or [undefined], or the resolved source has headers and
    the instance holds no object URL.  In every other case it renders an
    [img], also for a source without a URI. *)
Theorem nothing_rendered_iff (p : Props) (es : list Event) :
  let i := (run p es).1 in
  let resolved := resolvedSource (hash_cells i) in
  mounted i = true →
  rendered i = None ↔
  resolved = undefined ∨ resolved = null ∨
  (source_headers resolved ≠ None ∧ objectURL (header_cells i) = None).
Proof.
  intros i resolved Hm.
  destruct (reachable_display_invariant i (run_reachable p es)) as [_ Hshown].
  destruct (reachable_url_invariant i (run_reachable p es)) as [_ Hurl].
  fold resolved in Hshown. clearbody resolved. clearbody i.
  rewrite Hm in Hshown. destruct Hshown as [n ->].
  destruct resolved as [| |o]; cbn; [by split; auto..|].
  destruct (headers (fields o)) as [h|]; cbn.
  - destruct Hurl as [-> | (k & _ & ->)]; cbn.
    + split; [by auto|done].
    + split; [done|]. by intros [?|[?|[_ ?]]].
  - split; [done|]. by intros [?|[?|[? _]]].
Qed.

(** *** The thumbhash placeholder *)

Lemma replace_first_prefix (prefix rest : string) :
  replace_first (lit prefix) (prefix +:+ rest) = rest.
Proof.
  assert (rests (lit prefix) (prefix +:+ rest) = [rest]) as Hrests.
  { induction prefix as [|c prefix IH]; [done|].
    rewrite append_cons. cbn. rewrite decide_True by done. cbn.
    by rewrite IH. }
  destruct prefix as [|c prefix]; [by destruct rest|].
  rewrite append_cons in *. cbn [replace_first]. by rewrite Hrests.
Qed.

(** At its first render with a source whose URI is [thumbhash:/] followed
    by a hash, [useThumbhash] returns a new source object that has a URI and
    nothing else, neither the headers nor the size of the source: the data
    URL of the hash with the prefix cut off. *)
Theorem useThumbhash_decodes_stripped_hash (render : nat) (o : SourceObject)
    (hash : string) :
  uri (fields o) = Some ("thumbhash:/" +:+ hash) →
  memo_value (useThumbhash render None (val o))
  = val {| loc := render_loc render thumbhash_site;
           fields := {| uri := Some (thumbHashStringToDataURL hash);
                        headers := None; width := None; height := None |} |}.
Proof.
  intros Huri. unfold useThumbhash. cbn [source_uri useMemo memo_value].
  rewrite Huri. cbn [fmap option_fmap option_map or_empty default].
  rewrite (replace_first_prefix "thumbhash:/"). unfold id.
  by assert (isThumbhashString ("thumbhash:/" +:+ hash) = true) as ->
    by by destruct hash.
Qed.

End Lifecycle.

#[local] Existing Instance example_decoders.

(** A history with two protected sources, a placeholder in between: the URL
    of the first is revoked when that of the second replaces it, and the
    second when the instance is unmounted. *)
Example revocations_of_a_history :
  let r := run (example_props (protected_source 0 "https://example.org/a.png"))
             [Settle 0 ok_response;
              Render (example_props
                        (plain_source 2 "thumbhash:/1QcSHQRnh493V4dIh4eXh1h4kJUI"));
              Render (example_props (protected_source 1 "https://example.org/b.png"));
              Settle 0 ok_response;
              Unmount] in
  revocations r.2 = ["blob:0"; "blob:1"] ∧
  omap (fun a => match a with createObjectURL u => Some u | _ => None end) r.2
  = ["blob:0"; "blob:1"].
Proof. by vm_compute. Qed.

(** C3, at the failing input.  An instance is mounted with the source
    [https://example.org/a.png] and rendered again with the source
    [https://example.org/b.png]; neither is a hash.  The dependencies of the
    memo in [useImageHashes], [blurhash] and [thumbhash], are [null] at both
    renders, so the memo is not computed again: the resolved source is still
    the first one, and the [img] shows it. *)
Theorem replaced_source_is_not_passed_through :
  let first := plain_source 0 "https://example.org/a.png" in
  let second := plain_source 1 "https://example.org/b.png" in
  let i := (run (H := example_decoders) (example_props first)
              [Render (example_props second)]).1 in
  recognised_hash (source_uri second) = false ∧
  source (props i) = second ∧
  resolvedSource (hash_cells i) = first ∧
  resolvedSource (hash_cells i) ≠ second ∧
  rendered i = Some {| src := Some "https://example.org/a.png";
                       key := Some "https://example.org/b.png";
                       isImageHash := false |}.
Proof. vm_compute. split_and!; done. Qed.

(** C2, a witness: a protected image, rendered again with an equal source
    object before and after its fetch has succeeded. *)
Lemma headers_source_waits_for_fetch_witness :
  let es := [Render (example_props (protected_source 5 "https://example.org/a.png"));
             Settle 0 ok_response;
             Render (example_props (protected_source 6 "https://example.org/a.png"))] in
  let r := run (H := example_decoders)
             (example_props (protected_source 0 "https://example.org/a.png")) es in
  ∃ img, rendered r.1 = Some img ∧ src img = Some "blob:0".
Proof.
  destruct (headers_source_waits_for_fetch (H := example_decoders)
              {| loc := parent_loc 0;
                 fields := {| uri := Some "https://example.org/a.png";
                              headers := Some authorization;
                              width := None; height := None |} |}
              (example_props (protected_source 0 "https://example.org/a.png"))
              [Render (example_props (protected_source 5 "https://example.org/a.png"));
               Settle 0 ok_response;
               Render (example_props (protected_source 6 "https://example.org/a.png"))])
    as (_ & _ & _ & _ & Hshown); [reflexivity|discriminate|reflexivity| |].
  - repeat (apply Forall_cons; split; [first [exact I|by eexists]|]).
    apply Forall_nil_2.
  - apply Hshown; reflexivity.
Defined.

(** C2, the counterexamples.  A thumbhash source with headers is rendered
    at the mount, from its decoded placeholder, and no fetch is started.  And
    a protected source that replaces another one (a placeholder in between
    lets the memo of [useImageHashes] follow) is rendered while its own fetch
    is still pending, with the object URL of the source before it. *)
Lemma headers_source_rendered_without_its_fetch :
  (let source := protected_source 0 "thumbhash:/1QcSHQRnh493V4dIh4eXh1h4kJUI" in
   let r := run (H := example_decoders) (example_props source) [] in
   source_headers source ≠ None ∧
   rendered r.1
   = Some {| src := Some "data:image/png;base64,iVBORw0KGgo1QcSHQRnh493V4dIh4eXh1h4kJUI";
             key := Some "thumbhash:/1QcSHQRnh493V4dIh4eXh1h4kJUI";
             isImageHash := true |} ∧
   r.2 = []) ∧
  (let a := protected_source 0 "https://example.org/a.png" in
   let b := protected_source 1 "https://example.org/b.png" in
   let placeholder := plain_source 2 "thumbhash:/1QcSHQRnh493V4dIh4eXh1h4kJUI" in
   let r := run (H := example_decoders) (example_props a)
              [Settle 0 ok_response; Render (example_props placeholder);
               Render (example_props b)] in
   source (props r.1) = b ∧
   source_headers b ≠ None ∧
   request_source <$> pending r.1
   = [ {| loc := parent_loc 1;
          fields := {| uri := Some "https://example.org/b.png";
                       headers := Some authorization;
                       width := None; height := None |} |} ] ∧
   rendered r.1 = Some {| src := Some "blob:0";
                          key := Some "https://example.org/b.png";
                          isImageHash := false |}).
Proof. vm_compute. split_and!; done. Qed.

(** C5, a witness: the first fetch of a protected image is rejected. *)
Lemma failed_fetch_is_reported_witness :
  let a := {| loc := parent_loc 0;
              fields := {| uri := Some "https://example.org/a.png";
                           headers := Some authorization;
                           width := None; height := None |} |} in
  let i := (run (H := example_decoders) (example_props (val a)) []).1 in
  (step i (Settle 0 (rejected "TypeError: Failed to fetch"))).2
  = [console_error "TypeError: Failed to fetch"; call_onError 1 a;
     call_onError 2 a]
  ∧ rendered (step i (Settle 0 (rejected "TypeError: Failed to fetch"))).1
    = None.
Proof.
  destruct (failed_fetch_is_reported (H := example_decoders)
              (example_props (protected_source 0 "https://example.org/a.png"))
              [] 0
              {| request_source :=
                   {| loc := parent_loc 0;
                      fields := {| uri := Some "https://example.org/a.png";
                                   headers := Some authorization;
                                   width := None; height := None |} |};
                 request_cache := default_cache;
                 request_onError := Some [Some 1; None; Some 2] |}
              (rejected "TypeError: Failed to fetch")
              "TypeError: Failed to fetch" eq_refl eq_refl)
    as (Hlog & _ & _ & _ & Hnone).
  split; [exact Hlog|]. apply Hnone; [discriminate|reflexivity].
Defined.

(** C5, the counterexample.  The instance has an object URL from a first
    protected source; a second protected source replaces it and its fetch is
    rejected.  The error is logged and reported, and the instance goes on
    showing an [img], with the object URL of the first source. *)
Lemma image_still_rendered_after_failed_fetch :
  let a := protected_source 0 "https://example.org/a.png" in
  let b := protected_source 1 "https://example.org/b.png" in
  let placeholder := plain_source 2 "thumbhash:/1QcSHQRnh493V4dIh4eXh1h4kJUI" in
  let before := run (H := example_decoders) (example_props a)
                  [Settle 0 ok_response; Render (example_props placeholder);
                   Render (example_props b)] in
  let after := step (H := example_decoders) before.1
                 (Settle 0 (rejected "TypeError: Failed to fetch")) in
  request_source <$> pending before.1 !! 0
  = Some {| loc := parent_loc 1;
            fields := {| uri := Some "https://example.org/b.png";
                         headers := Some authorization;
                         width := None; height := None |} |} ∧
  head after.2 = Some (console_error "TypeError: Failed to fetch") ∧
  rendered after.1 = Some {| src := Some "blob:0";
                             key := Some "https://example.org/b.png";
                             isImageHash := false |} ∧
  rendered after.1 ≠ None.
Proof. vm_compute. split_and!; done. Qed.

(** C10, a witness: an instance that is given a protected source without a
    URI twice, and is unmounted. *)
Lemma source_without_uri_is_never_fetched_witness :
  let r := run (H := example_decoders) (example_props (protected_source 0 ""))
             [Render (example_props (protected_source 1 "")); Unmount] in
  rendered r.1 = None ∧ objectURL (header_cells r.1) = None ∧
  pending r.1 = [] ∧ Forall is_call_onMount r.2.
Proof.
  destruct (source_without_uri_is_never_fetched (H := example_decoders)
              {| loc := parent_loc 0;
                 fields := {| uri := Some ""; headers := Some authorization;
                              width := None; height := None |} |}
              (example_props (protected_source 0 ""))
              [Render (example_props (protected_source 1 "")); Unmount])
    as (_ & _ & Hnever).
  { split; [discriminate|reflexivity]. }
  destruct Hnever as (Hnone & Hurl & _ & Hpending & Hlog).
  - split; [discriminate|reflexivity].
  - repeat (apply Forall_cons; split;
            [first [exact I|split; [discriminate|reflexivity]]|]).
    apply Forall_nil_2.
  - repeat split; assumption.
Defined.

(** C10, the counterexample.  The instance has an object URL from a first
    protected source, then shows a placeholder, then is given a protected
    source whose URI is empty: no fetch is started for it, and [useHeaders]
    returns it with the object URL of the first source, so an [img] is
    rendered. *)
Lemma source_without_uri_rendered_from_earlier_url :
  let a := protected_source 0 "https://example.org/a.png" in
  let placeholder := plain_source 2 "thumbhash:/1QcSHQRnh493V4dIh4eXh1h4kJUI" in
  let empty := protected_source 3 "" in
  let r := run (H := example_decoders) (example_props a)
             [Settle 0 ok_response; Render (example_props placeholder);
              Render (example_props empty)] in
  headers_without_uri empty ∧
  source (props r.1) = empty ∧
  resolvedSource (hash_cells r.1) = empty ∧
  headers_result (renders r.1) (resolvedSource (hash_cells r.1))
    (objectURL (header_cells r.1)) ≠ null ∧
  rendered r.1 = Some {| src := Some "blob:0"; key := Some "";
                         isImageHash := false |}.
Proof.
  split; [split; [discriminate|reflexivity]|]. vm_compute. split_and!; done.
Qed.

(** *** Histories for the life of an instance *)

(** A protected image whose fetch has succeeded. *)
Lemma object_urls_accounted_for_witness :
  creations
    (run (example_props (protected_source 0 "https://example.org/a.png"))
       [Settle 0 ok_response]).2
  = ["blob:0"].
Proof.
  destruct (object_urls_accounted_for
              (example_props (protected_source 0 "https://example.org/a.png"))
              [Settle 0 ok_response]) as [Hmade _].
  - vm_compute. reflexivity.
  - rewrite Hmade. vm_compute. reflexivity.
Defined.

(** A protected image that is unmounted before its fetch succeeds. *)
Lemma url_made_after_unmount_is_never_revoked_witness :
  let p := example_props (protected_source 0 "https://example.org/a.png") in
  createObjectURL "blob:0" ∈ (run p [Unmount; Settle 0 ok_response]).2 ∧
  "blob:0" ∉ revocations (run p [Unmount; Settle 0 ok_response; Unmount]).2.
Proof.
  destruct (url_made_after_unmount_is_never_revoked
              (example_props (protected_source 0 "https://example.org/a.png"))
              [Unmount] [Unmount] 0 _ ok_response eq_refl eq_refl eq_refl)
    as (_ & Hnever & _).
  split; [|exact Hnever]. vm_compute. repeat first [apply list_elem_of_here | apply list_elem_of_further].
Defined.

(** A protected image, fetched and unmounted: the revocation is the third
    action of the log, after the making of the URL. *)
Lemma revocation_follows_creation_witness :
  let r := run (example_props (protected_source 0 "https://example.org/a.png"))
             [Settle 0 ok_response; Unmount] in
  ∃ j, j < 2 ∧ r.2 !! j = Some (createObjectURL "blob:0").
Proof.
  exact (proj1 (revocation_follows_creation
                  (example_props
                     (protected_source 0 "https://example.org/a.png"))
                  [Settle 0 ok_response; Unmount] 2 "blob:0" eq_refl)).
Defined.

(** A protected image whose fetch has succeeded is shown from its object
    URL. *)
Lemma shown_object_url_is_live_witness :
  ∃ u,
    objectURL
      (header_cells
         (run (example_props (protected_source 0 "https://example.org/a.png"))
            [Settle 0 ok_response]).1)
    = Some u ∧
    createObjectURL u
    ∈ (run (example_props (protected_source 0 "https://example.org/a.png"))
         [Settle 0 ok_response]).2.
Proof.
  destruct (shown_object_url_is_live
              (example_props (protected_source 0 "https://example.org/a.png"))
              [Settle 0 ok_response]
              {| src := Some "blob:0"; key := Some "https://example.org/a.png";
                 isImageHash := false |})
    as (u & _ & Hurl & Hmade & _).
  - vm_compute. reflexivity.
  - vm_compute. discriminate.
  - exact (ex_intro _ u (conj Hurl Hmade)).
Defined.

(** The protected image is rendered again with another object of the same
    URI and other headers. *)
Lemma render_with_same_uri_is_inert_witness :
  (step
     (run (example_props (protected_source 0 "https://example.org/a.png"))
        [Settle 0 ok_response]).1
     (Render
        {| source :=
             val {| loc := parent_loc 1;
                    fields :=
                      {| uri := Some "https://example.org/a.png";
                         headers := Some {[ "Authorization" := "other" ]};
                         width := None; height := None |} |};
           events := None; cachePolicy := Some cache_none |})).2
  = [].
Proof.
  apply (render_with_same_uri_is_inert
           (example_props (protected_source 0 "https://example.org/a.png"))
           [Settle 0 ok_response]).
  - vm_compute. reflexivity.
  - vm_compute. reflexivity.
  - vm_compute. discriminate.
Defined.

(** A plain image, then a thumbhash. *)
Lemma key_and_hash_flag_follow_source_witness :
  let r := run (example_props (plain_source 0 "https://example.org/a.png"))
             [Render (example_props (plain_source 1 "thumbhash:/1QcSHQRnh4"))] in
  ∃ img, rendered r.1 = Some img ∧ key img = Some "thumbhash:/1QcSHQRnh4" ∧
         isImageHash img = true.
Proof.
  eexists. split; [reflexivity|].
  exact (key_and_hash_flag_follow_source
           (example_props (plain_source 0 "https://example.org/a.png"))
           [Render (example_props (plain_source 1 "thumbhash:/1QcSHQRnh4"))]
           _ eq_refl).
Defined.

(** The fetch of a protected image. *)
Lemma fetched_sources_are_given_witness :
  let a := {| loc := parent_loc 0;
              fields := {| uri := Some "https://example.org/a.png";
                           headers := Some authorization;
                           width := None; height := None |} |} in
  fetch a default_cache ∈ (run (example_props (val a)) []).2 ∧
  val a ∈ [val a] ∧ headers (fields a) ≠ None ∧ or_empty (uri (fields a)) ≠ "".
Proof.
  assert (fetch
            {| loc := parent_loc 0;
               fields := {| uri := Some "https://example.org/a.png";
                            headers := Some authorization;
                            width := None; height := None |} |} default_cache
          ∈ (run (example_props
                    (protected_source 0 "https://example.org/a.png")) []).2)
    as Hin by (vm_compute; apply list_elem_of_here).
  split; [exact Hin|].
  exact (fetched_sources_are_given _ _ _ _ Hin).
Defined.

(** A protected image with the cache policy ['none']. *)
Lemma fetch_cache_follows_policy_witness :
  let a := {| loc := parent_loc 0;
              fields := {| uri := Some "https://example.org/a.png";
                           headers := Some authorization;
                           width := None; height := None |} |} in
  let p := {| source := val a; events := None;
              cachePolicy := Some cache_none |} in
  fetch a no_cache ∈ (run p [Render p]).2 ∧ no_cache = no_cache.
Proof.
  assert (fetch
            {| loc := parent_loc 0;
               fields := {| uri := Some "https://example.org/a.png";
                            headers := Some authorization;
                            width := None; height := None |} |} no_cache
          ∈ (run {| source :=
                      val {| loc := parent_loc 0;
                             fields :=
                               {| uri := Some "https://example.org/a.png";
                                  headers := Some authorization;
                                  width := None; height := None |} |};
                    events := None; cachePolicy := Some cache_none |}
               [Render
                  {| source :=
                       val {| loc := parent_loc 0;
                              fields :=
                                {| uri := Some "https://example.org/a.png";
                                   headers := Some authorization;
                                   width := None; height := None |} |};
                     events := None; cachePolicy := Some cache_none |}]).2)
    as Hin by (vm_compute; repeat first [apply list_elem_of_here | apply list_elem_of_further]).
  split; [exact Hin|].
  refine (fetch_cache_follows_policy _ _ _ _ _ Hin).
  by repeat constructor.
Defined.

(** A mounted instance that waits for the fetch of a protected image. *)
Lemma nothing_rendered_iff_witness :
  let r := run (example_props (protected_source 0 "https://example.org/a.png"))
             [] in
  rendered r.1 = None ↔
  resolvedSource (hash_cells r.1) = undefined ∨
  resolvedSource (hash_cells r.1) = null ∨
  (source_headers (resolvedSource (hash_cells r.1)) ≠ None ∧
   objectURL (header_cells r.1) = None).
Proof.
  exact (nothing_rendered_iff
           (example_props (protected_source 0 "https://example.org/a.png"))
           [] eq_refl).
Defined.

(** A thumbhash that replaces a plain image. *)
Lemma hash_source_resolves_to_placeholder_witness :
  let r := run (example_props (plain_source 0 "https://example.org/a.png"))
             [Render (example_props (plain_source 1 "thumbhash:/1QcSHQRnh4"))] in
  ∃ o, resolvedSource (hash_cells r.1) = val o ∧
       uri (fields o) = Some "data:image/png;base64,iVBORw0KGgo1QcSHQRnh4" ∧
       headers (fields o) = None.
Proof.
  destruct (hash_source_resolves_to_placeholder
              (example_props (plain_source 0 "https://example.org/a.png"))
              [Render (example_props (plain_source 1 "thumbhash:/1QcSHQRnh4"))]
              eq_refl) as (o & Hresolved & Hfields & _).
  exists o. split; [exact Hresolved|]. by rewrite Hfields.
Defined.

(** Two plain images, one after the other. *)
Lemma plain_sources_resolve_to_first_witness :
  resolvedSource
    (hash_cells
       (run (example_props (plain_source 0 "https://example.org/a.png"))
          [Render (example_props (plain_source 1 "https://example.org/b.png"))]).1)
  = plain_source 0 "https://example.org/a.png".
Proof.
  apply (plain_sources_resolve_to_first
           (example_props (plain_source 0 "https://example.org/a.png"))
           [Render (example_props (plain_source 1 "https://example.org/b.png"))]).
  - reflexivity.
  - by repeat constructor.
Defined.

(** A thumbhash. *)
Lemma useThumbhash_decodes_stripped_hash_witness :
  memo_value
    (useThumbhash 0 None (plain_source 0 "thumbhash:/1QcSHQRnh4"))
  = val {| loc := render_loc 0 thumbhash_site;
           fields := {| uri := Some "data:image/png;base64,iVBORw0KGgo1QcSHQRnh4";
                        headers := None; width := None; height := None |} |}.
Proof.
  exact (useThumbhash_decodes_stripped_hash 0
           {| loc := parent_loc 0;
              fields := {| uri := Some "thumbhash:/1QcSHQRnh4"; headers := None;
                           width := None; height := None |} |}
           "1QcSHQRnh4" eq_refl).
Defined.

End ImageWrapperFacts.
